(** * SIMBS waiver checker: reconciliation and reporting (main.py)

    A shallow embedding of [process_waiver_data], [report_to_console] and
    [prepare_data_for_reporting], with the Python operations they rely on
    (subscripting and iterating decoded JSON, [datetime.fromtimestamp],
    [datetime + timedelta], [assert], f-string padding, [strftime])
    written out as total functions into an exception monad.  What the
    host and the Unicode tables decide, the local time of a timestamp and
    [str.lower], are parameters. *)

From Stdlib Require Import ZArith Lia DecimalString.
From stdpp Require Import base option list strings functions gmap.

(** ** Python values

    The bodies returned by [response.json()] are trees of [None], booleans,
    integers, strings, lists and dicts.  Dicts are kept as association lists
    in key order, because iterating a dict yields its keys in order; a key
    occurs at most once in a Python dict and [assoc] below returns its first
    binding.  JSON numbers with a fractional part are outside this model:
    the waiver service sends [received_at] as whole epoch seconds.
    A [str] is kept as its UTF-8 encoding, one [ascii] per byte; its
    characters are its code points.  [VDatetime] holds a naive [datetime]
    at one-second resolution. *)

Definition datetime := Z.

#[warnings="-register-all"]
Inductive value :=
| VNone
| VBool (b : bool)
| VInt (n : Z)
| VStr (s : string)
| VList (l : list value)
| VDict (d : list (string * value))
| VDatetime (d : datetime).

Inductive exn :=
| KeyError (k : string)
| TypeError
| AttributeError
| ValueError
| OverflowError
| OSError
| AssertionError (msg : string).

Inductive result (A : Type) :=
| Ok (a : A)
| Raise (e : exn).
Arguments Ok {A} a.
Arguments Raise {A} e.

#[global] Instance result_ret : MRet result := fun A a => Ok a.
#[global] Instance result_bind : MBind result := fun A B f m =>
  match m with
  | Ok a => f a
  | Raise e => Raise e
  end.

Fixpoint assoc (k : string) (d : list (string * value)) : option value :=
  match d with
  | [] => None
  | (k', v) :: rest => if decide (k = k') then Some v else assoc k rest
  end.

(** [v[k]] for a string key [k]: only a dict can be subscripted by a string. *)
Definition getitem (v : value) (k : string) : result value :=
  match v with
  | VDict d =>
      match assoc k d with
      | Some x => Ok x
      | None => Raise (KeyError k)
      end
  | _ => Raise TypeError
  end.

(** A byte that continues a code point in UTF-8: 10xxxxxx. *)
Definition is_continuation (c : Ascii.ascii) : bool :=
  let n := Ascii.N_of_ascii c in
  ((128 <=? n) && (n <? 192))%N.

(** The code points of a string: each a byte with the continuation bytes
    that follow it. *)
Fixpoint code_points (s : string) : list string :=
  match s with
  | EmptyString => []
  | String c rest =>
      let l := code_points rest in
      match rest with
      | String c' _ =>
          if is_continuation c' then
            match l with
            | k :: l' => String c k :: l'
            | [] => [String c EmptyString]
            end
          else String c EmptyString :: l
      | EmptyString => String c EmptyString :: l
      end
  end.

(** The characters a loop over a string visits. *)
Definition chars (s : string) : list value := VStr <$> code_points s.

(** The elements a [for] loop visits: the items of a list, the characters
    of a string, the keys of a dict; anything else is not iterable. *)
Definition iter (v : value) : result (list value) :=
  match v with
  | VList l => Ok l
  | VStr s => Ok (chars s)
  | VDict d => Ok ((fun kv => VStr kv.1) <$> d)
  | _ => Raise TypeError
  end.

(** [v == s] for a string literal [s]. *)
Definition eq_str (v : value) (s : string) : bool :=
  match v with
  | VStr s' => bool_decide (s' = s)
  | _ => false
  end.

Definition truthy (v : value) : bool :=
  match v with
  | VNone => false
  | VBool b => b
  | VInt n => negb (n =? 0)%Z
  | VStr s => negb (bool_decide (s = ""))
  | VList l => negb (bool_decide (l = []))
  | VDict d => negb (bool_decide (d = []))
  | VDatetime _ => true
  end.

(** ** Strings *)

(** [len(s)]: the number of code points, that is of the bytes that do not
    continue one. *)
Fixpoint len (s : string) : nat :=
  match s with
  | EmptyString => 0
  | String c rest => (if is_continuation c then 0 else 1) + len rest
  end.

Fixpoint spaces (n : nat) : string :=
  match n with
  | O => ""
  | S n' => " " +:+ spaces n'
  end.

(** [format(s, '<w')] on a string: pad on the right up to [w] characters. *)
Definition ljust (s : string) (w : nat) : string :=
  s +:+ spaces (w - len s).

(** [str(n)] on an integer. *)
Definition str (n : Z) : string := NilZero.string_of_int (Z.to_int n).

(** ** Naive datetimes

    A naive [datetime] is a point of the proleptic Gregorian calendar; it is
    kept as the number of seconds since 1970-01-01 00:00:00 on that
    calendar.  [datetime.min] is 0001-01-01 00:00:00 and [datetime.max]
    is 9999-12-31 23:59:59. *)

Definition datetime_min : Z := -62135596800.
Definition datetime_max : Z := 253402300799.

Definition in_range (d : Z) : bool :=
  ((datetime_min <=? d) && (d <=? datetime_max))%Z.

Definition timedelta (days : Z) : Z := (days * 86400)%Z.

(** [d + delta]: [OverflowError] when the sum leaves the calendar. *)
Definition datetime_add (d : datetime) (delta : Z) : result datetime :=
  if in_range (d + delta) then Ok (d + delta)%Z else Raise OverflowError.

(** Year, month and day of a day count since 1970-01-01. *)
Definition civil_from_days (days : Z) : Z * Z * Z :=
  (let z := days + 719468 in
   let era := z / 146097 in
   let doe := z - era * 146097 in
   let yoe := (doe - doe / 1460 + doe / 36524 - doe / 146096) / 365 in
   let doy := doe - (365 * yoe + yoe / 4 - yoe / 100) in
   let mp := (5 * doy + 2) / 153 in
   let d := doy - (153 * mp + 2) / 5 + 1 in
   let m := if mp <? 10 then mp + 3 else mp - 9 in
   let y := yoe + era * 400 + (if m <=? 2 then 1 else 0) in
   (y, m, d))%Z.

(** [d.strftime('%-m/%-d/%Y')] with the C library the script runs on:
    month and day without padding, then the year. *)
Definition strftime (d : datetime) : string :=
  let '(y, m, dd) := civil_from_days (d / 86400)%Z in
  str m +:+ "/" +:+ str dd +:+ "/" +:+ str y.

(** ** Reconciliation: [process_waiver_data] *)

Definition WAIVER_VALIDITY : Z := 365.

(** The namedtuple of line 34.  Its three fields are strings, as in the
    specification's data model. *)
Record Registrant := mkRegistrant {
  email : string;
  first_name : string;
  last_name : string;
}.

(** One element of [registration_data], as [waiverforever_api_request]
    builds it: the registrant and the decoded body of the waiver search. *)
Record registration := mkRegistration {
  eventbrite_data : Registrant;
  waiverforever_data : value;
}.

(** A dict with string keys, such as the items of [processed_data]. *)
Abbreviation dict := (gmap string value).

(** [item.get(k)] *)
Definition get (item : dict) (k : string) : value := default VNone (item !! k).

(** The three variables the waiver loop updates. *)
Record scan_state := mkScan {
  dates : list datetime;
  is_current : bool;
  waiverforever_email : value;
}.

Definition scan_init : scan_state :=
  {| dates := []; is_current := false; waiverforever_email := VStr "" |}.

(** [for field in waiver['data']: if field['type'] == 'email_field': ...] *)
Fixpoint scan_fields (fields : list value) (wf_email : value) : result value :=
  match fields with
  | [] => Ok wf_email
  | field :: rest =>
      ty ← getitem field "type";
      if eq_str ty "email_field"
      then v ← getitem field "value"; scan_fields rest v
      else scan_fields rest wf_email
  end.

(** The message of the [assert] on line 119. *)
Definition mismatch_message (wf eb : string) : string :=
  "found a non-matching email field. WF: " +:+ wf +:+ " EB: " +:+ eb.

Definition make_item (r : Registrant) (st : scan_state) : dict :=
  {[ "wf_email" := waiverforever_email st;
     "eb_email" := VStr (email r);
     "eb_first_name" := VStr (first_name r);
     "eb_last_name" := VStr (last_name r);
     "dates" := VList (VDatetime <$> dates st);
     "is_current" := VBool (is_current st) ]}.

Section Host.

(** [datetime.fromtimestamp(n)] for an integer [n], on the host the script
    runs on: the naive local datetime of that instant in the host's time
    zone, or the exception the host answers with ([ValueError],
    [OverflowError] or [OSError], by platform and magnitude). *)
Variable local_datetime : Z → result datetime.

(** [s.lower()], with the Unicode tables of the interpreter. *)
Variable lower : string → string.

(** [datetime.fromtimestamp(t)]: a bool counts as the integer 0 or 1;
    other non-numbers are a [TypeError]. *)
Definition fromtimestamp (t : value) : result datetime :=
  match t with
  | VInt n => local_datetime n
  | VBool b => local_datetime (if b then 1 else 0)%Z
  | _ => Raise TypeError
  end.

(** [assert (wf == '') or (wf.lower() == eb.lower()), msg], assertions
    enabled as in a default interpreter run.  A value that is not a string
    is unequal to [''] and has no [lower] method. *)
Definition assert_email (wf : value) (eb : string) : result unit :=
  match wf with
  | VStr s =>
      if bool_decide (s = "") then Ok ()
      else if bool_decide (lower s = lower eb) then Ok ()
      else Raise (AssertionError (mismatch_message s eb))
  | _ => Raise AttributeError
  end.

(** Lines 111-112: the date of one waiver. *)
Definition waiver_date_of (waiver : value) : result datetime :=
  waiver_unix_date ← getitem waiver "received_at";
  fromtimestamp waiver_unix_date.

(** The body of [for waiver in ...] (lines 111-118). *)
Definition scan_waiver (end_date : datetime) (st : scan_state) (waiver : value)
  : result scan_state :=
  waiver_unix_date ← getitem waiver "received_at";
  waiver_date ← fromtimestamp waiver_unix_date;
  let dates' := dates st ++ [waiver_date] in
  expiry ← datetime_add waiver_date (timedelta WAIVER_VALIDITY);
  let is_current' := if (expiry >? end_date)%Z then true else is_current st in
  data ← getitem waiver "data";
  fields ← iter data;
  wf_email ← scan_fields fields (waiverforever_email st);
  Ok {| dates := dates'; is_current := is_current'; waiverforever_email := wf_email |}.

Fixpoint scan_waivers (end_date : datetime) (waivers : list value) (st : scan_state)
  : result scan_state :=
  match waivers with
  | [] => Ok st
  | waiver :: rest =>
      st' ← scan_waiver end_date st waiver;
      scan_waivers end_date rest st'
  end.

(** [reg['waiverforever_data']['data']['waivers']], as the loop iterates it. *)
Definition waivers_of (reg : registration) : result (list value) :=
  d ← getitem (waiverforever_data reg) "data";
  ws ← getitem d "waivers";
  iter ws.

(** The body of [for reg in registration_data] (lines 107-129): the item
    appended to [processed_data], or the exception that ends the run. *)
Definition process_registration (end_date : datetime) (reg : registration)
  : result dict :=
  waivers ← waivers_of reg;
  st ← scan_waivers end_date waivers scan_init;
  _ ← assert_email (waiverforever_email st) (email (eventbrite_data reg));
  Ok (make_item (eventbrite_data reg) st).

Fixpoint process_loop (end_date : datetime) (regs : list registration)
    (processed_data : list dict) : result (list dict) :=
  match regs with
  | [] => Ok processed_data
  | reg :: rest =>
      item ← process_registration end_date reg;
      process_loop end_date rest (processed_data ++ [item])
  end.

Definition process_waiver_data (registration_data : list registration)
    (end_date : datetime) : result (list dict) :=
  process_loop end_date registration_data [].

End Host.

(** ** Reporting: [report_to_console]

    Standard output is the list of the strings handed to [print], one per
    call, oldest first; it comes with the exception that interrupted the
    report, if any. *)

Definition newline : string := String (Ascii.ascii_of_N 10) "".

(** [item[k]] on a dict object. *)
Definition getitem_dict (item : dict) (k : string) : result value :=
  match item !! k with
  | Some v => Ok v
  | None => Raise (KeyError k)
  end.

(** [not item.get('is_current')] *)
Definition not_current (item : dict) : bool :=
  negb (truthy (get item "is_current")).

(** The replacement field [{v:<w}] of an f-string, that is
    [format(v, '<w')]: strings and integers are padded on the right (a bool
    formats as the integer it is), a datetime hands the spec to [strftime],
    which copies it, and [None], lists and dicts reject a non-empty spec. *)
Definition format_ljust (v : value) (w : nat) : result string :=
  match v with
  | VStr s => Ok (ljust s w)
  | VInt n => Ok (ljust (str n) w)
  | VBool b => Ok (ljust (if b then "1" else "0") w)
  | VDatetime _ => Ok ("<" +:+ str (Z.of_nat w))
  | VNone | VList _ | VDict _ => Raise TypeError
  end.

Definition table_header : string :=
  ljust "Email" 30 +:+ " " +:+ ljust "Firstname" 15 +:+ " " +:+ ljust "Lastname" 15.

(** Line 142: the text of one table row. *)
Definition format_row (waiver : dict) : result string :=
  e ← getitem_dict waiver "eb_email";
  e' ← format_ljust e 30;
  f ← getitem_dict waiver "eb_first_name";
  f' ← format_ljust f 15;
  l ← getitem_dict waiver "eb_last_name";
  l' ← format_ljust l 15;
  Ok (e' +:+ " " +:+ f' +:+ " " +:+ l').

Fixpoint print_rows (data : list dict) (stdout : list string)
  : list string * option exn :=
  match data with
  | [] => (stdout, None)
  | waiver :: rest =>
      if not_current waiver then
        match format_row waiver with
        | Ok line => print_rows rest (stdout ++ [line])
        | Raise e => (stdout, Some e)
        end
      else print_rows rest stdout
  end.

Definition count_line (invalid total : nat) : string :=
  newline +:+ "Found " +:+ str (Z.of_nat invalid) +:+
  " invalid or missing waivers out of " +:+ str (Z.of_nat total) +:+ " waivers.".

Definition report_to_console (data : list dict) : list string * option exn :=
  let waiver_invalid_count := length (filter (fun item => not_current item = true) data) in
  print_rows data
    [ count_line waiver_invalid_count (length data);
      "Invalid or missing waivers:";
      table_header ].

(** ** Reporting: [prepare_data_for_reporting]

    The function rebinds a key of the dicts it is handed, so the list and
    its dicts are objects in a store, addressed by location; the same dict
    may sit at several positions of the list.  The values inside a dict are
    kept inline: the function never mutates them, it replaces them. *)

Definition loc := nat.

Inductive obj :=
| ODict (d : dict)
| OList (items : list loc).

Abbreviation store := (loc → obj).

(** [date.strftime('%-m/%-d/%Y')]: only a datetime has the method. *)
Definition strftime_value (date : value) : result value :=
  match date with
  | VDatetime d => Ok (VStr (strftime d))
  | _ => Raise AttributeError
  end.

Fixpoint map_result {A B} (f : A → result B) (l : list A) : result (list B) :=
  match l with
  | [] => Ok []
  | x :: rest => y ← f x; ys ← map_result f rest; Ok (y :: ys)
  end.

(** [for item in data: ...] over the item references of the list. *)
Fixpoint format_items (items : list loc) (h : store) : result store :=
  match items with
  | [] => Ok h
  | item :: rest =>
      match h item with
      | ODict d =>
          if truthy (get d "dates") then
            ds ← getitem_dict d "dates";
            elems ← iter ds;
            formatted ← map_result strftime_value elems;
            format_items rest (<[item := ODict (<["dates" := VList formatted]> d)]> h)
          else format_items rest h
      | OList _ => Raise AttributeError
      end
  end.

(** The returned reference with the store it leaves.  An uncaught exception
    ends the script, so no store is kept for that case.  Iterating a dict
    in place of the list would yield its keys, strings without [get]. *)
Definition prepare_data_for_reporting (data : loc) (h : store) : result (loc * store) :=
  match h data with
  | OList items => h' ← format_items items h; Ok (data, h')
  | ODict d => if decide (d = ∅) then Ok (data, h) else Raise AttributeError
  end.

(** ** The spec's vocabulary, stated on the same data

    These follow the wording of the specification, not the loop: which
    waivers are current, which email values a search result carries, and
    what a reconciled item looks like to the reporter. *)

(** A current waiver: its date plus the validity period falls strictly
    after the cutoff. *)
Definition waiver_current (local_datetime : Z → result datetime)
    (end_date : datetime) (waiver : value) : bool :=
  match waiver_date_of local_datetime waiver with
  | Ok d => (d + timedelta WAIVER_VALIDITY >? end_date)%Z
  | Raise _ => false
  end.

(** The value of a field whose type marks it as an email field. *)
Definition email_value (field : value) : option value :=
  match getitem field "type" with
  | Ok ty =>
      if eq_str ty "email_field" then
        match getitem field "value" with
        | Ok v => Some v
        | Raise _ => None
        end
      else None
  | Raise _ => None
  end.

(** The email values of one waiver, in field order. *)
Definition email_fields_of (waiver : value) : list value :=
  match getitem waiver "data" ≫= iter with
  | Ok fields => omap email_value fields
  | Raise _ => []
  end.

(** The email values of all the waivers, in scan order. *)
Definition email_fields_seen (waivers : list value) : list value :=
  concat (email_fields_of <$> waivers).

(** Case-insensitive equality of two strings: equal once lowered. *)
Definition same_email (lower : string → string) (a b : string) : Prop :=
  lower a = lower b.

(** What the reporter reads from a reconciled item: email, first name,
    last name and the verdict. *)
Definition row_of (item : dict) : option (string * string * string * bool) :=
  match item !! "eb_email", item !! "eb_first_name",
        item !! "eb_last_name", item !! "is_current" with
  | Some (VStr e), Some (VStr f), Some (VStr l), Some (VBool c) => Some (e, f, l, c)
  | _, _, _, _ => None
  end.

Definition table_row (r : string * string * string * bool) : string :=
  ljust r.1.1.1 30 +:+ " " +:+ ljust r.1.1.2 15 +:+ " " +:+ ljust r.1.2 15.

Definition row_invalid (r : string * string * string * bool) : bool := negb r.2.

(** The dates of an item as the reporting pass leaves them. *)
Definition formatted_dates (ds : list datetime) : value :=
  VList ((fun d => VStr (strftime d)) <$> ds).

(** ** Sample data

    Search results in the shape the waiver service documents, and the
    registrants and time zones used in the examples below. *)

Definition field (ty v : string) : value :=
  VDict [("type", VStr ty); ("value", VStr v)].

Definition waiver (received_at : Z) (fields : list value) : value :=
  VDict [("received_at", VInt received_at); ("data", VList fields)].

Definition search_result (waivers : list value) : value :=
  VDict [("data", VDict [("waivers", VList waivers)])].

(** A Linux host at a fixed offset from UTC.  A stamp beyond [time_t] is
    an [OverflowError]; a local year that the C library cannot hold in an
    [int] is an [OSError]; and [datetime.fromtimestamp] needs the local
    time, and that of the instant 24 hours earlier which it probes for a
    repeated hour, within years 1..9999, else [ValueError]. *)
Definition host (offset : Z) (n : Z) : result datetime :=
  (if negb ((- 2 ^ 63 <=? n) && (n <? 2 ^ 63)) then Raise OverflowError
   else
     let year := (civil_from_days ((n + offset) / 86400)).1.1 in
     if negb ((- 2 ^ 31 <=? year - 1900) && (year - 1900 <? 2 ^ 31))
     then Raise OSError
     else if in_range (n + offset) && in_range (n - 86400 + offset)
     then Ok (n + offset)
     else Raise ValueError)%Z.

Definition utc : Z → result datetime := host 0.
Definition utc_plus_1 : Z → result datetime := host 3600.

(** [str.lower] on ASCII text, where it turns A-Z into a-z; it stands in
    for [str.lower] in the examples, whose strings are ASCII. *)
Definition ascii_lower_char (c : Ascii.ascii) : Ascii.ascii :=
  let n := Ascii.N_of_ascii c in
  if ((65 <=? n) && (n <=? 90))%N then Ascii.ascii_of_N (n + 32) else c.

Fixpoint ascii_lower (s : string) : string :=
  match s with
  | EmptyString => EmptyString
  | String c rest => String (ascii_lower_char c) (ascii_lower rest)
  end.

Definition alice : Registrant := mkRegistrant "alice@x.com" "Alice" "A".
Definition carol : Registrant := mkRegistrant "carol@x.com" "Carol" "C".

(** 2024-06-01, 2023-12-01 and 2022-01-01, at midnight. *)
Definition t_2024_06_01 : Z := 1717200000.
Definition t_2023_12_01 : Z := 1701388800.
Definition t_2022_01_01 : Z := 1640995200.

Definition w_old : value := waiver t_2022_01_01 [field "email_field" "ALICE@x.com"].
Definition w_new : value :=
  waiver t_2023_12_01 [field "name_field" "Alice A"; field "email_field" "Alice@X.com"].
Definition w_bob : value := waiver t_2023_12_01 [field "email_field" "bob@x.com"].

Definition reg_alice : registration :=
  mkRegistration alice (search_result [w_new; w_old]).
Definition reg_carol : registration :=
  mkRegistration carol (search_result []).
Definition reg_overwritten : registration :=
  mkRegistration alice (search_result [w_bob; w_new]).
Definition reg_mismatch : registration :=
  mkRegistration alice (search_result [w_new; w_bob]).
Definition reg_no_list : registration :=
  mkRegistration carol (VDict [("data", VDict [])]).

Definition item_alice : dict :=
  make_item alice {| dates := [t_2023_12_01; t_2022_01_01]; is_current := true;
                     waiverforever_email := VStr "ALICE@x.com" |}.
Definition item_carol : dict :=
  make_item carol {| dates := []; is_current := false;
                     waiverforever_email := VStr "" |}.

Definition item_overwritten : dict :=
  make_item alice {| dates := [t_2023_12_01; t_2023_12_01]; is_current := true;
                     waiverforever_email := VStr "Alice@X.com" |}.

(** 2023-06-02 at midnight, 365 days before 2024-06-01. *)
Definition t_2023_06_02 : Z := 1685664000.

Definition reg_edge : registration :=
  mkRegistration alice
    (search_result [waiver t_2023_06_02 [field "email_field" "alice@x.com"]]).

Definition item_edge (received : datetime) (current : bool) : dict :=
  make_item alice {| dates := [received]; is_current := current;
                     waiverforever_email := VStr "alice@x.com" |}.

(** A field of the first item of a run's output. *)
Definition first_item_field (k : string) (r : result (list dict)) : option value :=
  match r with
  | Ok (item :: _) => item !! k
  | _ => None
  end.

Definition dave : Registrant := mkRegistrant "dave@x.com" "Dave" "D".
Definition reg_dave : registration :=
  mkRegistration dave
    (search_result [waiver t_2022_01_01 [field "email_field" "dave@x.com"]]).
Definition item_dave : dict :=
  make_item dave {| dates := [t_2022_01_01]; is_current := false;
                    waiverforever_email := VStr "dave@x.com" |}.

(** What the reporting pass does to the dict of one item: a truthy
    [dates] is a list of datetimes and is replaced by their formatted
    strings; otherwise the dict stays as it is. *)
Definition formatted_from (d d' : dict) : Prop :=
  if truthy (get d "dates")
  then ∃ ds, d !! "dates" = Some (VList (VDatetime <$> ds)) ∧
             d' = <["dates" := formatted_dates ds]> d
  else d' = d.

(** A store with the list [data] at location 0 and its three items at
    locations 1 to 3, and the same store after the reporting pass. *)
Definition sample_store : store := fun l =>
  match l with
  | 0 => OList [1; 2; 3]
  | 1 => ODict item_alice
  | 2 => ODict item_carol
  | _ => ODict item_dave
  end.

Definition sample_store_formatted : store :=
  <[3 := ODict (<["dates" := formatted_dates [t_2022_01_01]]> item_dave)]>
    (<[1 := ODict (<["dates" := formatted_dates [t_2023_12_01; t_2022_01_01]]> item_alice)]>
       sample_store).

(** ** Well-formed search results

    A waiver as the service documents it: whole epoch seconds and a list of
    (type, value) string fields.  [waiver_in_range] says that the host
    converts its stamp and that its expiry lies on the calendar. *)

Definition encode_waiver (w : Z * list (string * string)) : value :=
  waiver w.1 ((fun f => field f.1 f.2) <$> w.2).

Definition waiver_in_range (local_datetime : Z → result datetime)
    (w : Z * list (string * string)) : bool :=
  match local_datetime w.1 with
  | Ok d => in_range (d + timedelta WAIVER_VALIDITY)
  | Raise _ => false
  end.

(** The emails of the email-typed fields, in scan order. *)
Definition typed_emails (ws : list (Z * list (string * string))) : list string :=
  concat ((fun w : Z * list (string * string) =>
             omap (fun f : string * string =>
                     if bool_decide (f.1 = "email_field") then Some f.2 else None)
                  w.2) <$> ws).

Definition emails_agree (lower : string → string) (r : Registrant)
    (ws : list (Z * list (string * string))) : bool :=
  match last (typed_emails ws) with
  | Some s => bool_decide (s = "") || bool_decide (lower s = lower (email r))
  | None => true
  end.

(** ** Relating two runs

    Two scan states that hold the same dates and the same email, with
    their verdicts related by [Rb]; two outcomes that are both values,
    related, or both the same exception. *)

Definition state_rel (Rb : bool → bool → Prop) (st st' : scan_state) : Prop :=
  dates st = dates st' ∧
  waiverforever_email st = waiverforever_email st' ∧
  Rb (is_current st) (is_current st').

Definition item_rel (Rb : bool → bool → Prop) (item item' : dict) : Prop :=
  ∃ r st st', item = make_item r st ∧ item' = make_item r st' ∧ state_rel Rb st st'.

Definition result_rel {A} (R : A → A → Prop) (r r' : result A) : Prop :=
  match r, r' with
  | Ok a, Ok a' => R a a'
  | Raise x, Raise x' => x = x'
  | _, _ => False
  end.

(** The keys of an item of [processed_data]. *)
Definition item_keys : gset string :=
  list_to_set ["wf_email"; "eb_email"; "eb_first_name"; "eb_last_name";
               "dates"; "is_current"].

(** The local date of a well-formed waiver, and whether it is current. *)
Definition typed_date (local_datetime : Z → result datetime)
    (w : Z * list (string * string)) : datetime :=
  match local_datetime w.1 with
  | Ok d => d
  | Raise _ => 0%Z
  end.

Definition typed_current (local_datetime : Z → result datetime)
    (end_date : datetime) (w : Z * list (string * string)) : bool :=
  (typed_date local_datetime w + timedelta WAIVER_VALIDITY >? end_date)%Z.

Definition reg_null_email : registration :=
  mkRegistration alice
    (search_result
       [waiver t_2023_12_01 [VDict [("type", VStr "email_field"); ("value", VNone)]]]).

(** ** What the reporter reads

    The keys [report_to_console] looks at, the names of an item whose
    verdict may be missing, and the dicts behind the references of a
    list. *)

Definition report_keys : list string :=
  ["is_current"; "eb_email"; "eb_first_name"; "eb_last_name"].

Definition keys_agree (d d' : dict) : Prop :=
  ∀ k, k ∈ report_keys → d !! k = d' !! k.

Definition name_row (item : dict) : option (string * string * string) :=
  match item !! "eb_email", item !! "eb_first_name", item !! "eb_last_name" with
  | Some (VStr e), Some (VStr f), Some (VStr l) => Some (e, f, l)
  | _, _, _ => None
  end.

Fixpoint read_items (h : store) (items : list loc) : option (list dict) :=
  match items with
  | [] => Some []
  | l :: rest =>
      match h l with
      | ODict d => (fun ds => d :: ds) <$> read_items h rest
      | OList _ => None
      end
  end.

(** A dict the formatting pass has been over: its [dates] is falsy, or a
    non-empty list of formatted strings. *)
Definition pass_done (d : dict) : Prop :=
  truthy (get d "dates") = false ∨
  ∃ ds, ds ≠ [] ∧ d !! "dates" = Some (formatted_dates ds).

Definition item_no_verdict : dict :=
  {[ "eb_email" := VStr "erin@x.com"; "eb_first_name" := VStr "Erin";
     "eb_last_name" := VStr "E" ]}.

(** [sample_store] with the item at location 1 also at the end of the
    list. *)
Definition aliased_store : store := <[0 := OList [1; 2; 1]]> sample_store.

(** ** The adapters: HTTP, the console and the clock

    The functions around the reconciliation call [requests], read the
    clock and the keyboard, and use two parsers of the standard library.
    The network is an oracle that answers a request given the requests
    sent before it; a call threads the log of requests sent so far.  The
    credentials module, [datetime.strptime] and [int] are parameters. *)

Inductive failure :=
| PyError (e : exn)
| HTTPError (status : Z)
| RequestException
| IndexError.

Inductive outcome (A : Type) :=
| Done (a : A)
| Failed (f : failure).
Arguments Done {A} a.
Arguments Failed {A} f.

Inductive http_method := GET | POST | PUT.

Record request := mkRequest {
  method : http_method;
  url : string;
  headers : list (string * string);
  params : list (string * string);
  json : option value;
}.

(** A response: its status code and what [response.json()] gives. *)
Record response := mkResponse {
  status_code : Z;
  body : result value;
}.

Definition io (A : Type) : Type := list request → outcome A * list request.

#[global] Instance io_ret : MRet io := fun A a log => (Done a, log).
#[global] Instance io_bind : MBind io := fun A B f m log =>
  match m log with
  | (Done a, log') => f a log'
  | (Failed e, log') => (Failed e, log')
  end.

(** A data operation inside a call: its exception becomes the call's. *)
Definition lift {A} (r : result A) : io A := fun log =>
  (match r with
   | Ok a => Done a
   | Raise e => Failed (PyError e)
   end, log).

(** [response.raise_for_status()]: client and server errors raise. *)
Definition raise_for_status (r : response) : io unit := fun log =>
  (if ((400 <=? status_code r) && (status_code r <? 600))%Z
   then Failed (HTTPError (status_code r))
   else Done (), log).

Definition EVENTBRITE_BASE_URL : string := "https://www.eventbriteapi.com/v3".
Definition EVENTBRITE_ORG_ENDPOINT : string := "/organizations/".
Definition EVENTBRITE_EVENTS_ENDPOINT : string := "/events/".
Definition EVENTBRITE_ORDERS_ENDPOINT : string := "/orders?status=all_not_deleted".
Definition EVENTBRITE_TIME_FORMAT : string := "%Y-%m-%dT%H:%M:%S".
Definition WAIVERFOREVER_SEARCH_ENDPOINT : string :=
  "https://api.waiverforever.com/openapi/v1/waiver/search".

(** [l[i]] on a list, for an integer index: a negative index counts from
    the end. *)
Definition list_getitem {A} (l : list A) (i : Z) : outcome A :=
  let n := Z.of_nat (length l) in
  let j := (if i <? 0 then i + n else i)%Z in
  if ((0 <=? j) && (j <? n))%Z then
    match l !! Z.to_nat j with
    | Some x => Done x
    | None => Failed IndexError
    end
  else Failed IndexError.

(** [Registrant(order['email'], order['first_name'], order['last_name'])]:
    the namedtuple as [get_registrants] fills it, with whatever the order
    holds under the three keys. *)
Record order_registrant := mkOrderRegistrant {
  order_email : value;
  order_first_name : value;
  order_last_name : value;
}.

Definition registrant_of_order (order : value) : result order_registrant :=
  e ← getitem order "email";
  f ← getitem order "first_name";
  l ← getitem order "last_name";
  Ok (mkOrderRegistrant e f l).

(** A registrant of the data model as the namedtuple holds it. *)
Definition order_registrant_of (r : Registrant) : order_registrant :=
  mkOrderRegistrant (VStr (email r)) (VStr (first_name r)) (VStr (last_name r)).

(** [item['name']['text']] *)
Definition event_name (item : value) : result value :=
  name ← getitem item "name";
  getitem name "text".

(** Line 63: [print(index + 1, ". " + item['name']['text'])]; the two
    arguments are printed with a space between them. *)
Definition menu_line (index : nat) (text : string) : string :=
  str (Z.of_nat index + 1) +:+ " " +:+ ". " +:+ text.

Fixpoint print_menu (f_events : list value) (index : nat) (stdout : list string)
  : list string * option exn :=
  match f_events with
  | [] => (stdout, None)
  | item :: rest =>
      match event_name item with
      | Ok (VStr text) => print_menu rest (S index) (stdout ++ [menu_line index text])
      | Ok _ => (stdout, Some TypeError)
      | Raise e => (stdout, Some e)
      end
  end.

Definition select_prompt : string := newline +:+ "Select item: ".

Section Adapters.

(** The credentials module. *)
Variables EVENTBRITE_API_KEY EVENTBRITE_ORGANIZATION_ID : string.
Variable WAIVERFOREVER_API_KEY : string.
Variables GOOGLE_SHEETS_API_KEY SPREADSHEET_ID : string.

(** The answer to a request, given the requests sent before it; [Failed]
    when [requests] raises instead of returning a response. *)
Variable network : list request → request → outcome response.

(** [datetime.strptime(date_string, format)] on strings. *)
Variable strptime : string → string → result datetime.

(** [int(s)] on a string. *)
Variable int : string → result Z.

Definition send (rq : request) : io response := fun log =>
  (network log rq, log ++ [rq]).

Definition strptime_value (v : value) (format : string) : result datetime :=
  match v with
  | VStr s => strptime s format
  | _ => Raise TypeError
  end.

Definition eventbrite_get (u : string) : request :=
  {| method := GET; url := u;
     headers := [("Authorization", "Bearer " +:+ EVENTBRITE_API_KEY)];
     params := []; json := None |}.

Definition eventbrite_api_request (u : string) : io value :=
  response ← send (eventbrite_get u);
  _ ← raise_for_status response;
  lift (body response).

(** [datetime.strptime(item['end']['local'], EVENTBRITE_TIME_FORMAT)] *)
Definition event_end (item : value) : result datetime :=
  e ← getitem item "end";
  l ← getitem e "local";
  strptime_value l EVENTBRITE_TIME_FORMAT.

(** The comprehension of line 55. *)
Fixpoint future_of (time_now : datetime) (items : list value) : result (list value) :=
  match items with
  | [] => Ok []
  | item :: rest =>
      t ← event_end item;
      f_events ← future_of time_now rest;
      Ok (if (t >? time_now)%Z then item :: f_events else f_events)
  end.

Definition events_url : string :=
  EVENTBRITE_BASE_URL +:+ EVENTBRITE_ORG_ENDPOINT +:+
  EVENTBRITE_ORGANIZATION_ID +:+ EVENTBRITE_EVENTS_ENDPOINT.

(** [get_future_events], given what [datetime.now()] returned.  The end
    of an event has whole seconds, so comparing it with the clock's
    reading or with that reading cut to the second decides the same. *)
Definition get_future_events (time_now : datetime) : io (list value) :=
  data ← eventbrite_api_request events_url;
  lift (events ← getitem data "events";
        items ← iter events;
        future_of time_now items).

(** [get_event_selection], given the line typed at the prompt: what is
    written to the console, the prompt included, and the value returned. *)
Definition get_event_selection (f_events : list value) (sel : string)
  : list string * result Z :=
  match print_menu f_events 0 [] with
  | (stdout, Some e) => (stdout, Raise e)
  | (stdout, None) => (stdout ++ [select_prompt], n ← int sel; Ok (n - 1)%Z)
  end.

Definition orders_url (id : string) : string :=
  EVENTBRITE_BASE_URL +:+ EVENTBRITE_EVENTS_ENDPOINT +:+ id +:+
  EVENTBRITE_ORDERS_ENDPOINT.

Definition event_url (id : string) : string :=
  EVENTBRITE_BASE_URL +:+ EVENTBRITE_EVENTS_ENDPOINT +:+ id.

Definition get_registrants (id : string) : io (list order_registrant * datetime) :=
  data ← eventbrite_api_request (orders_url id);
  regs ← lift (orders ← getitem data "orders";
               os ← iter orders;
               map_result registrant_of_order os);
  date_data ← eventbrite_api_request (event_url id);
  end_date ← lift (event_end date_data);
  mret (regs, end_date).

(** The search request for one registrant.  The registrants are those of
    the data model, with a string for email. *)
Definition search_request (u : string) (reg : Registrant) : request :=
  {| method := POST; url := u;
     headers := [("X-API-Key", WAIVERFOREVER_API_KEY)];
     params := [];
     json := Some (VDict [("search_term", VStr (email reg))]) |}.

Fixpoint search_loop (u : string) (regs : list Registrant) (data : list registration)
  : io (list registration) :=
  match regs with
  | [] => mret data
  | reg :: rest =>
      response ← send (search_request u reg);
      _ ← raise_for_status response;
      json_data ← lift (body response);
      search_loop u rest (data ++ [mkRegistration reg json_data])
  end.

Definition waiverforever_api_request (u : string) (regs : list Registrant)
  : io (list registration) :=
  search_loop u regs [].

Definition clear_request : request :=
  {| method := POST;
     url := "https://sheets.googleapis.com/v4/spreadsheets/" +:+ SPREADSHEET_ID +:+
            "/values/" +:+ "Sheet1!A:Z" +:+ ":clear";
     headers := [];
     params := [("key", GOOGLE_SHEETS_API_KEY)];
     json := None |}.

Definition write_request (data : value) : request :=
  {| method := PUT;
     url := "https://sheets.googleapis.com/v4/spreadsheets/" +:+ SPREADSHEET_ID +:+
            "/values/Sheet1!A1";
     headers := [];
     params := [("valueInputOption", "USER_ENTERED"); ("key", GOOGLE_SHEETS_API_KEY)];
     json := Some (VDict [("values", data)]) |}.

(** [output_to_google_sheets]: the response to the clear request is
    dropped; the one to the write request is checked and decoded. *)
Definition output_to_google_sheets (data : value) : io value :=
  _ ← send clear_request;
  response ← send (write_request data);
  _ ← raise_for_status response;
  lift (body response).

End Adapters.

(** ** The adapters, in the spec's vocabulary *)

(** What one request comes to, for a caller that checks the status and
    decodes the body: the decoded body, or what went wrong. *)
Definition fetch (network : list request → request → outcome response)
    (log : list request) (rq : request) : outcome value :=
  match network log rq with
  | Failed f => Failed f
  | Done resp =>
      if ((400 <=? status_code resp) && (status_code resp <? 600))%Z
      then Failed (HTTPError (status_code resp))
      else match body resp with
           | Ok v => Done v
           | Raise e => Failed (PyError e)
           end
  end.

(** An event whose end parses and lies strictly after [time_now]. *)
Definition ends_after (strptime : string → string → result datetime)
    (time_now : datetime) (item : value) : bool :=
  match event_end strptime item with
  | Ok t => (t >? time_now)%Z
  | Raise _ => false
  end.

(** *** Sample events, parsers and network *)

Definition event (name ends id : string) : value :=
  VDict [("name", VDict [("text", VStr name)]);
         ("end", VDict [("local", VStr ends)]);
         ("id", VStr id)].

Definition ev_winter : value := event "Winter Ride" "2023-12-01T00:00:00" "101".
Definition ev_spring : value := event "Spring Ride" "2024-06-01T00:00:00" "102".
Definition ev_summer : value := event "Summer Ride" "2024-08-01T00:00:00" "103".

Definition t_2024_08_01 : Z := 1722470400.

Definition sample_strptime (s format : string) : result datetime :=
  if decide (format = EVENTBRITE_TIME_FORMAT) then
    if decide (s = "2023-12-01T00:00:00") then Ok t_2023_12_01
    else if decide (s = "2024-06-01T00:00:00") then Ok t_2024_06_01
    else if decide (s = "2024-08-01T00:00:00") then Ok t_2024_08_01
    else Raise ValueError
  else Raise ValueError.

Definition sample_int (s : string) : result Z :=
  if decide (s = "0") then Ok 0%Z
  else if decide (s = "1") then Ok 1%Z
  else if decide (s = "2") then Ok 2%Z
  else if decide (s = "3") then Ok 3%Z
  else Raise ValueError.

Definition order (e f l : string) : value :=
  VDict [("email", VStr e); ("first_name", VStr f); ("last_name", VStr l)].

(** A network that knows one organisation, one event with two orders,
    the waivers of alice and carol, and a spreadsheet whose clear
    endpoint is out of order. *)
Definition sample_network (log : list request) (rq : request) : outcome response :=
  match method rq with
  | GET =>
      if decide (url rq = events_url "org") then
        Done (mkResponse 200 (Ok (VDict [("events", VList [ev_winter; ev_spring; ev_summer])])))
      else if decide (url rq = orders_url "102") then
        Done (mkResponse 200
                (Ok (VDict [("orders", VList [order "alice@x.com" "Alice" "A";
                                              order "carol@x.com" "Carol" "C"])])))
      else if decide (url rq = event_url "102") then
        Done (mkResponse 200 (Ok ev_spring))
      else if decide (url rq = orders_url "103") then
        Done (mkResponse 200 (Ok (VDict [])))
      else Done (mkResponse 404 (Raise ValueError))
  | POST =>
      match json rq with
      | Some (VDict [(_, VStr term)]) =>
          if decide (term = "alice@x.com") then
            Done (mkResponse 200 (Ok (search_result [w_new; w_old])))
          else if decide (term = "carol@x.com") then
            Done (mkResponse 200 (Ok (search_result [])))
          else Done (mkResponse 429 (Ok (VDict [])))
      | _ => Done (mkResponse 503 (Raise ValueError))
      end
  | PUT => Done (mkResponse 200 (Ok (VDict [("updatedRows", VInt 3)])))
  end.

(** ** What a run asks of the host

    Two hosts convert the received-at stamp of a waiver alike: the same
    local datetime, or the same exception. *)

Definition converts_alike (local_datetime1 local_datetime2 : Z → result datetime)
    (waiver : value) : Prop :=
  ∀ t, getitem waiver "received_at" = Ok t →
       fromtimestamp local_datetime1 t = fromtimestamp local_datetime2 t.

(** A host like [utc] that fails on the instant 0. *)
Definition utc_but_at_epoch (n : Z) : result datetime :=
  if decide (n = 0%Z) then Raise OSError else utc n.

(** ** The model on concrete inputs *)

Example strftime_epoch : strftime 0%Z = "1/1/1970".
Proof. reflexivity. Qed.

Example strftime_2023_12_01 : strftime t_2023_12_01 = "12/1/2023".
Proof. reflexivity. Qed.

Example strftime_leap_day : strftime 1709251199%Z = "2/29/2024".
Proof. reflexivity. Qed.

Example strftime_min : strftime datetime_min = "1/1/1".
Proof. reflexivity. Qed.

Example strftime_max : strftime datetime_max = "12/31/9999".
Proof. reflexivity. Qed.

Example lower_mixed : ascii_lower "Alice@X.com" = "alice@x.com".
Proof. reflexivity. Qed.

Example ljust_short : ljust "ab" 5 = "ab   ".
Proof. reflexivity. Qed.

Example ljust_long : ljust "abcdef" 5 = "abcdef".
Proof. reflexivity. Qed.

(** Padding counts characters, not bytes. *)
Example len_accented : len "José" = 4 ∧ String.length "José" = 5.
Proof. split; reflexivity. Qed.

Example ljust_accented : len (ljust "José" 15) = 15.
Proof. reflexivity. Qed.

Example chars_accented : chars "né" = [VStr "n"; VStr "é"].
Proof. reflexivity. Qed.

Example host_first_day_of_year_1 : utc (datetime_min + 43200) = Raise ValueError.
Proof. reflexivity. Qed.

Example host_beyond_time_t : utc (10 ^ 20) = Raise OverflowError.
Proof. reflexivity. Qed.

Example host_beyond_c_years : utc (10 ^ 17) = Raise OSError.
Proof. reflexivity. Qed.

Example host_year_10000 : utc (datetime_max + 1) = Raise ValueError.
Proof. reflexivity. Qed.

Example count_line_2_of_3 :
  count_line 2 3 = newline +:+ "Found 2 invalid or missing waivers out of 3 waivers.".
Proof. reflexivity. Qed.

(** The end-to-end examples of the specification. *)
Example waiver_of_2023_12_01_is_current :
  process_waiver_data utc ascii_lower
    [mkRegistration alice
       (search_result [waiver t_2023_12_01 [field "email_field" "alice@x.com"]])]
    t_2024_06_01 =
  Ok [make_item alice {| dates := [t_2023_12_01]; is_current := true;
                         waiverforever_email := VStr "alice@x.com" |}].
Proof. vm_compute. reflexivity. Qed.

Example waiver_of_2022_01_01_is_expired :
  process_waiver_data utc ascii_lower
    [mkRegistration alice
       (search_result [waiver t_2022_01_01 [field "email_field" "alice@x.com"]])]
    t_2024_06_01 =
  Ok [make_item alice {| dates := [t_2022_01_01]; is_current := false;
                         waiverforever_email := VStr "alice@x.com" |}].
Proof. vm_compute. reflexivity. Qed.

Example waiver_of_bob_aborts :
  process_waiver_data utc ascii_lower [mkRegistration alice (search_result [w_bob])] t_2024_06_01 =
  Raise (AssertionError "found a non-matching email field. WF: bob@x.com EB: alice@x.com").
Proof. reflexivity. Qed.

(** Malformed bodies raise where Python raises. *)
Example null_waiver_list :
  process_waiver_data utc ascii_lower
    [mkRegistration carol (VDict [("data", VDict [("waivers", VNone)])])]
    t_2024_06_01 = Raise TypeError.
Proof. reflexivity. Qed.

Example received_at_as_text :
  process_waiver_data utc ascii_lower
    [mkRegistration carol
       (search_result [VDict [("received_at", VStr "1701388800"); ("data", VList [])]])]
    t_2024_06_01 = Raise TypeError.
Proof. reflexivity. Qed.

Example null_email_value :
  process_waiver_data utc ascii_lower
    [mkRegistration carol
       (search_result
          [waiver t_2023_12_01
             [VDict [("type", VStr "email_field"); ("value", VNone)]]])]
    t_2024_06_01 = Raise AttributeError.
Proof. reflexivity. Qed.

Example expiry_beyond_the_calendar :
  process_waiver_data utc ascii_lower
    [mkRegistration carol (search_result [waiver datetime_max []])]
    t_2024_06_01 = Raise OverflowError.
Proof. reflexivity. Qed.

(** A dict that sits twice in the list is formatted once; the second
    visit finds strings in its [dates]. *)
Example aliased_item_raises :
  prepare_data_for_reporting 0
    (fun l => match l with 0 => OList [1; 1] | _ => ODict item_dave end) =
  Raise AttributeError.
Proof. reflexivity. Qed.

(** ** The exception monad *)

Lemma bind_Ok {A B} (m : result A) (f : A → result B) (b : B) :
  m ≫= f = Ok b ↔ ∃ a, m = Ok a ∧ f a = Ok b.
Proof.
  destruct m as [a|e]; simpl; split.
  - intros H. exists a. split; [reflexivity | exact H].
  - intros (a' & Ha & H). injection Ha as <-. exact H.
  - discriminate.
  - intros (a' & Ha & _). discriminate.
Qed.

Ltac bind_inv H :=
  repeat match type of H with
  | _ ≫= _ = Ok _ =>
      let a := fresh "a" in
      let Ha := fresh "Ha" in
      apply bind_Ok in H as (a & Ha & H)
  end.

(** ** The registrant loop *)

Section Loop.
Variable local_datetime : Z → result datetime.
Variable lower : string → string.
Variable end_date : datetime.

Lemma process_loop_app (pre rest : list registration) (acc : list dict) :
  process_loop local_datetime lower end_date (pre ++ rest) acc =
  process_loop local_datetime lower end_date pre acc ≫= process_loop local_datetime lower end_date rest.
Proof.
  revert acc. induction pre as [|reg pre IH]; intros acc; simpl.
  - reflexivity.
  - destruct (process_registration local_datetime lower end_date reg) as [item|e]; simpl.
    + apply IH.
    + reflexivity.
Qed.

Lemma process_loop_ok (regs : list registration) (acc out : list dict) :
  process_loop local_datetime lower end_date regs acc = Ok out ↔
  ∃ items,
    Forall2 (fun reg item => process_registration local_datetime lower end_date reg = Ok item)
      regs items ∧ out = acc ++ items.
Proof.
  revert acc. induction regs as [|reg regs IH]; intros acc; simpl.
  - split.
    + intros [= <-]. exists []. split; [constructor | by rewrite app_nil_r].
    + intros (items & HF & ->). apply Forall2_nil_inv_l in HF as ->.
      by rewrite app_nil_r.
  - rewrite bind_Ok. split.
    + intros (item & Hitem & Hrest). apply IH in Hrest as (items & HF & ->).
      exists (item :: items). split; [by constructor | by rewrite <- app_assoc].
    + intros (items & HF & ->).
      apply Forall2_cons_inv_l in HF as (item & items' & Hitem & HF & ->).
      exists item. split; [exact Hitem |].
      apply IH. exists items'. split; [exact HF | by rewrite <- app_assoc].
Qed.

Lemma process_waiver_data_ok (rd : list registration) (out : list dict) :
  process_waiver_data local_datetime lower rd end_date = Ok out ↔
  Forall2 (fun reg item => process_registration local_datetime lower end_date reg = Ok item) rd out.
Proof.
  unfold process_waiver_data. rewrite process_loop_ok. split.
  - intros (items & HF & ->). exact HF.
  - intros HF. exists out. split; [exact HF | reflexivity].
Qed.

Lemma process_waiver_data_lookup (rd : list registration) (out : list dict)
    (i : nat) (reg : registration) :
  process_waiver_data local_datetime lower rd end_date = Ok out →
  rd !! i = Some reg →
  ∃ item, out !! i = Some item ∧
          process_registration local_datetime lower end_date reg = Ok item.
Proof.
  intros Hrun Hreg. apply process_waiver_data_ok in Hrun.
  destruct (Forall2_lookup_l _ _ _ _ _ Hrun Hreg) as (item & Hitem & Hbody).
  by exists item.
Qed.

Lemma process_waiver_data_raise (pre post : list registration)
    (reg : registration) (acc : list dict) (e : exn) :
  process_waiver_data local_datetime lower pre end_date = Ok acc →
  process_registration local_datetime lower end_date reg = Raise e →
  process_waiver_data local_datetime lower (pre ++ reg :: post) end_date = Raise e.
Proof.
  unfold process_waiver_data. intros Hpre Hreg.
  rewrite process_loop_app, Hpre. simpl. by rewrite Hreg.
Qed.

(** What a successful pass over one registrant went through. *)
Lemma process_registration_ok (reg : registration) (item : dict) :
  process_registration local_datetime lower end_date reg = Ok item →
  ∃ ws st,
    waivers_of reg = Ok ws ∧
    scan_waivers local_datetime end_date ws scan_init = Ok st ∧
    assert_email lower (waiverforever_email st) (email (eventbrite_data reg)) = Ok () ∧
    item = make_item (eventbrite_data reg) st.
Proof.
  unfold process_registration. intros H. bind_inv H.
  injection H as <-. destruct a1. eauto 10.
Qed.

End Loop.

(** ** The waiver loop *)

Lemma datetime_add_ok (d : datetime) (delta : Z) (x : datetime) :
  datetime_add d delta = Ok x → x = (d + delta)%Z.
Proof.
  unfold datetime_add. destruct (in_range (d + delta)); [|discriminate].
  by intros [= <-].
Qed.

Lemma scan_fields_last (fields : list value) (em em' : value) :
  scan_fields fields em = Ok em' →
  em' = default em (last (omap email_value fields)).
Proof.
  revert em. induction fields as [|field rest IH]; intros em; simpl.
  - by intros [= <-].
  - unfold email_value at 1.
    destruct (getitem field "type") as [ty|e]; simpl; [|discriminate].
    destruct (eq_str ty "email_field").
    + destruct (getitem field "value") as [v|e]; simpl; [|discriminate].
      intros H. rewrite (IH _ H), last_cons.
      fold (omap email_value rest). by destruct (last (omap email_value rest)).
    + apply IH.
Qed.

Section Scan.
Variable local_datetime : Z → result datetime.
Variable end_date : datetime.

Lemma scan_waiver_ok (st st' : scan_state) (waiver : value) :
  scan_waiver local_datetime end_date st waiver = Ok st' →
  ∃ d,
    waiver_date_of local_datetime waiver = Ok d ∧
    dates st' = dates st ++ [d] ∧
    is_current st' = (waiver_current local_datetime end_date waiver || is_current st) ∧
    waiverforever_email st' =
      default (waiverforever_email st) (last (email_fields_of waiver)).
Proof.
  unfold scan_waiver, waiver_current, waiver_date_of, email_fields_of.
  destruct (getitem waiver "received_at") as [t|]; simpl; [|discriminate].
  destruct (fromtimestamp local_datetime t) as [d|]; simpl; [|discriminate].
  unfold datetime_add.
  destruct (in_range (d + timedelta WAIVER_VALIDITY)); simpl; [|discriminate].
  destruct (getitem waiver "data") as [data|]; simpl; [|discriminate].
  destruct (iter data) as [fields|]; simpl; [|discriminate].
  destruct (scan_fields fields (waiverforever_email st)) as [em|] eqn:Hem;
    simpl; [|discriminate].
  intros [= <-]. simpl. exists d. apply scan_fields_last in Hem.
  split; [reflexivity |]. split; [reflexivity |]. split; [|exact Hem].
  by destruct (_ >? _)%Z.
Qed.

Lemma scan_waivers_app (ws1 ws2 : list value) (st : scan_state) :
  scan_waivers local_datetime end_date (ws1 ++ ws2) st =
  scan_waivers local_datetime end_date ws1 st ≫= scan_waivers local_datetime end_date ws2.
Proof.
  revert st. induction ws1 as [|w ws1 IH]; intros st; simpl.
  - reflexivity.
  - destruct (scan_waiver local_datetime end_date st w) as [st'|e]; simpl.
    + apply IH.
    + reflexivity.
Qed.

Lemma scan_waivers_ok (ws : list value) (st st' : scan_state) :
  scan_waivers local_datetime end_date ws st = Ok st' →
  (∃ ds, Forall2 (fun w d => waiver_date_of local_datetime w = Ok d) ws ds ∧
         dates st' = dates st ++ ds) ∧
  is_current st' = (existsb (waiver_current local_datetime end_date) ws || is_current st) ∧
  waiverforever_email st' =
    default (waiverforever_email st) (last (email_fields_seen ws)).
Proof.
  revert st. induction ws as [|w ws IH]; intros st; simpl.
  - intros [= <-]. split; [|done].
    exists []. split; [constructor | by rewrite app_nil_r].
  - rewrite bind_Ok. intros (st1 & Hw & Hrest).
    apply scan_waiver_ok in Hw as (d & Hd & Hds & Hcur & Hem).
    apply IH in Hrest as ((ds & HF & Hds') & Hcur' & Hem').
    split; [|split].
    + exists (d :: ds). split; [by constructor |].
      by rewrite Hds', Hds, <- app_assoc.
    + rewrite Hcur', Hcur. by destruct (waiver_current _ _ w), (existsb _ ws).
    + rewrite Hem', Hem. unfold email_fields_seen. simpl. rewrite last_app.
      by destruct (last (concat _)).
Qed.

End Scan.

(** ** Reading a reconciled item *)

Lemma make_item_lookup (r : Registrant) (st : scan_state) :
  make_item r st !! "wf_email" = Some (waiverforever_email st) ∧
  make_item r st !! "eb_email" = Some (VStr (email r)) ∧
  make_item r st !! "eb_first_name" = Some (VStr (first_name r)) ∧
  make_item r st !! "eb_last_name" = Some (VStr (last_name r)) ∧
  make_item r st !! "dates" = Some (VList (VDatetime <$> dates st)) ∧
  make_item r st !! "is_current" = Some (VBool (is_current st)).
Proof. repeat split. Qed.

Lemma assert_email_ok (lower : string → string) (wf : value) (eb : string) :
  assert_email lower wf eb = Ok () →
  ∃ s, wf = VStr s ∧ (s = "" ∨ same_email lower s eb).
Proof.
  unfold assert_email, same_email. destruct wf as [| | |s| | |]; try discriminate.
  intros H. exists s. split; [reflexivity |].
  destruct (bool_decide_reflect (s = "")); [by left |].
  destruct (bool_decide_reflect (lower s = lower eb)); [by right | discriminate].
Qed.


(** ** Well-formed input is reconciled without an exception *)

Lemma scan_fields_typed (fs : list (string * string)) (em : value) :
  ∃ em', scan_fields ((fun f => field f.1 f.2) <$> fs) em = Ok em'.
Proof.
  revert em. induction fs as [|[ty v] fs IH]; intros em; simpl.
  - by exists em.
  - destruct (bool_decide (ty = "email_field")); simpl; apply IH.
Qed.

Lemma email_fields_typed (ws : list (Z * list (string * string))) :
  email_fields_seen (encode_waiver <$> ws) = VStr <$> typed_emails ws.
Proof.
  unfold email_fields_seen, typed_emails.
  induction ws as [|[t fs] ws IH]; [reflexivity |].
  rewrite !fmap_cons, !concat_cons, fmap_app, IH. f_equal.
  unfold email_fields_of. simpl. clear IH.
  induction fs as [|[ty v] fs IH]; [reflexivity |].
  simpl. unfold email_value at 1. simpl.
  destruct (bool_decide (ty = "email_field")); simpl; [f_equal |]; exact IH.
Qed.

Section Total.
Variable local_datetime : Z → result datetime.
Variable lower : string → string.
Variable end_date : datetime.

Lemma scan_waivers_typed (ws : list (Z * list (string * string))) (st : scan_state) :
  Forall (fun w => waiver_in_range local_datetime w = true) ws →
  ∃ st', scan_waivers local_datetime end_date (encode_waiver <$> ws) st = Ok st'.
Proof.
  intros HF. revert st. induction HF as [|[t fs] ws Hw HF IH]; intros st; simpl.
  - by exists st.
  - unfold waiver_in_range in Hw. simpl in Hw.
    unfold scan_waiver, datetime_add. simpl.
    destruct (local_datetime t) as [d|]; [|discriminate]. simpl.
    rewrite Hw. simpl.
    destruct (scan_fields_typed fs (waiverforever_email st)) as (em & ->).
    simpl. apply IH.
Qed.

Lemma process_registration_typed (r : Registrant)
    (ws : list (Z * list (string * string))) :
  Forall (fun w => waiver_in_range local_datetime w = true) ws →
  emails_agree lower r ws = true →
  ∃ item,
    process_registration local_datetime lower end_date
      (mkRegistration r (search_result (encode_waiver <$> ws))) = Ok item.
Proof.
  intros HF Hagree. unfold process_registration. simpl.
  destruct (scan_waivers_typed ws scan_init HF) as (st & Hscan).
  rewrite Hscan. simpl.
  apply scan_waivers_ok in Hscan as (_ & _ & ->).
  rewrite email_fields_typed, fmap_last. unfold emails_agree in Hagree.
  destruct (last (typed_emails ws)) as [s|]; simpl; [|eauto].
  apply orb_true_iff in Hagree as [-> | Hlow]; [eauto |].
  destruct (bool_decide (s = "")); [eauto |]. rewrite Hlow. eauto.
Qed.

End Total.

(** ** Reconciliation: the claims *)

Lemma waiver_current_spec (local_datetime : Z → result datetime) (end_date : datetime) (w : value) :
  waiver_current local_datetime end_date w = true ↔
  ∃ d, waiver_date_of local_datetime w = Ok d ∧
       (d + timedelta WAIVER_VALIDITY > end_date)%Z.
Proof.
  unfold waiver_current. destruct (waiver_date_of local_datetime w) as [d|e]; split.
  - intros H. exists d. split; [reflexivity | lia].
  - intros (d' & [= <-] & H). lia.
  - discriminate.
  - intros (d' & [=] & _).
Qed.

(** The item emitted for the registrant at position [i] of a run that
    completes: the waivers scanned, the state the scan ends in, and the
    assertion it passed. *)
Lemma reconciled_at (local_datetime : Z → result datetime)
    (lower : string → string) (rd : list registration)
    (end_date : datetime) (out : list dict) (i : nat) (reg : registration) :
  process_waiver_data local_datetime lower rd end_date = Ok out →
  rd !! i = Some reg →
  ∃ ws st,
    waivers_of reg = Ok ws ∧
    scan_waivers local_datetime end_date ws scan_init = Ok st ∧
    assert_email lower (waiverforever_email st) (email (eventbrite_data reg)) = Ok () ∧
    out !! i = Some (make_item (eventbrite_data reg) st).
Proof.
  intros Hrun Hreg.
  destruct (process_waiver_data_lookup _ _ _ _ _ _ _ Hrun Hreg) as (item & Hi & Hb).
  apply process_registration_ok in Hb as (ws & st & Hws & Hscan & Hassert & ->).
  eauto 10.
Qed.

(** C1. Whenever the search result of a registrant holds a waiver whose
    received-at date plus 365 days is strictly after the cutoff, the item
    emitted for that registrant has [is_current] true, whatever the other
    waivers of the list are. *)
Theorem one_current_waiver_suffices (local_datetime : Z → result datetime)
    (lower : string → string)
    (rd : list registration) (end_date : datetime) (out : list dict)
    (i : nat) (reg : registration) (ws : list value) (w : value) (d : datetime) :
  process_waiver_data local_datetime lower rd end_date = Ok out →
  rd !! i = Some reg →
  waivers_of reg = Ok ws →
  w ∈ ws →
  waiver_date_of local_datetime w = Ok d →
  (d + timedelta WAIVER_VALIDITY > end_date)%Z →
  ∃ item, out !! i = Some item ∧ item !! "is_current" = Some (VBool true).
Proof.
  intros Hrun Hreg Hws Hin Hd Hgt.
  destruct (reconciled_at _ _ _ _ _ _ _ Hrun Hreg) as (ws' & st & Hws' & Hscan & _ & Hi).
  rewrite Hws in Hws'. injection Hws' as <-.
  apply scan_waivers_ok in Hscan as (_ & Hcur & _).
  exists (make_item (eventbrite_data reg) st). split; [exact Hi |].
  assert (Hex : existsb (waiver_current local_datetime end_date) ws = true).
  { apply existsb_exists. exists w. split; [by apply list_elem_of_In |].
    apply waiver_current_spec. eauto. }
  rewrite Hex in Hcur. simpl in Hcur.
  destruct (make_item_lookup (eventbrite_data reg) st) as (_ & _ & _ & _ & _ & ->).
  by rewrite Hcur.
Qed.

Lemma one_current_waiver_suffices_witness :
  ∃ item, [item_alice; item_carol] !! 0%nat = Some item ∧
          item !! "is_current" = Some (VBool true).
Proof.
  apply (one_current_waiver_suffices utc ascii_lower [reg_alice; reg_carol] t_2024_06_01
           [item_alice; item_carol] 0 reg_alice [w_new; w_old] w_new t_2023_12_01).
  - vm_compute. reflexivity.
  - reflexivity.
  - reflexivity.
  - left.
  - reflexivity.
  - vm_compute. reflexivity.
Defined.

(** C9. The item emitted for a registrant has [is_current] true exactly
    when some waiver of the search result has a received-at date plus 365
    days strictly after the cutoff; an expiry equal to the cutoff does not
    count. *)
Theorem is_current_iff_some_waiver_current (local_datetime : Z → result datetime)
    (lower : string → string)
    (rd : list registration) (end_date : datetime) (out : list dict)
    (i : nat) (reg : registration) :
  process_waiver_data local_datetime lower rd end_date = Ok out →
  rd !! i = Some reg →
  ∃ ws item b,
    waivers_of reg = Ok ws ∧
    out !! i = Some item ∧
    item !! "is_current" = Some (VBool b) ∧
    (b = true ↔
     ∃ w d, w ∈ ws ∧ waiver_date_of local_datetime w = Ok d ∧
            (d + timedelta WAIVER_VALIDITY > end_date)%Z).
Proof.
  intros Hrun Hreg.
  destruct (reconciled_at _ _ _ _ _ _ _ Hrun Hreg) as (ws & st & Hws & Hscan & _ & Hi).
  apply scan_waivers_ok in Hscan as (_ & Hcur & _).
  exists ws, (make_item (eventbrite_data reg) st), (is_current st).
  split; [exact Hws |]. split; [exact Hi |].
  split; [apply make_item_lookup |].
  rewrite Hcur. simpl. rewrite orb_false_r, existsb_exists. split.
  - intros (w & Hin & Hw). apply waiver_current_spec in Hw as (d & Hd & Hgt).
    exists w, d. split; [by apply list_elem_of_In | by split].
  - intros (w & d & Hin & Hd & Hgt). exists w.
    split; [by apply list_elem_of_In | apply waiver_current_spec; eauto].
Qed.

Lemma is_current_iff_some_waiver_current_witness :
  ∃ ws item b,
    waivers_of reg_alice = Ok ws ∧
    [item_alice; item_carol] !! 0%nat = Some item ∧
    item !! "is_current" = Some (VBool b) ∧
    (b = true ↔
     ∃ w d, w ∈ ws ∧ waiver_date_of utc w = Ok d ∧
            (d + timedelta WAIVER_VALIDITY > t_2024_06_01)%Z).
Proof.
  apply (is_current_iff_some_waiver_current utc ascii_lower [reg_alice; reg_carol]
           t_2024_06_01 [item_alice; item_carol] 0 reg_alice).
  - vm_compute. reflexivity.
  - reflexivity.
Defined.


(** C2. In every item a completed run emits, [wf_email] is the empty
    string or equals [eb_email], the registrant's email, up to case. *)
Theorem emitted_wf_email_matches (local_datetime : Z → result datetime)
    (lower : string → string) (rd : list registration)
    (end_date : datetime) (out : list dict) :
  process_waiver_data local_datetime lower rd end_date = Ok out →
  Forall2 (fun reg item =>
             ∃ wf, item !! "wf_email" = Some (VStr wf) ∧
                   item !! "eb_email" = Some (VStr (email (eventbrite_data reg))) ∧
                   (wf = "" ∨ same_email lower wf (email (eventbrite_data reg))))
          rd out.
Proof.
  intros Hrun. apply process_waiver_data_ok in Hrun.
  eapply Forall2_impl; [exact Hrun |].
  intros reg item Hb. simpl in Hb.
  apply process_registration_ok in Hb as (ws & st & _ & _ & Hassert & ->).
  apply assert_email_ok in Hassert as (s & Hs & Hor).
  exists s. destruct (make_item_lookup (eventbrite_data reg) st) as (-> & -> & _).
  rewrite Hs. by repeat split.
Qed.

Lemma emitted_wf_email_matches_witness :
  Forall2 (fun reg item =>
             ∃ wf, item !! "wf_email" = Some (VStr wf) ∧
                   item !! "eb_email" = Some (VStr (email (eventbrite_data reg))) ∧
                   (wf = "" ∨ same_email ascii_lower wf (email (eventbrite_data reg))))
          [reg_alice; reg_carol] [item_alice; item_carol].
Proof.
  apply (emitted_wf_email_matches utc ascii_lower [reg_alice; reg_carol] t_2024_06_01).
  vm_compute. reflexivity.
Defined.

Lemma scan_waiver_parts (local_datetime : Z → result datetime)
    (end_date : datetime) (st st' : scan_state) (w : value) :
  scan_waiver local_datetime end_date st w = Ok st' →
  ∃ d fields,
    waiver_date_of local_datetime w = Ok d ∧
    dates st' = dates st ++ [d] ∧
    getitem w "data" ≫= iter = Ok fields ∧
    scan_fields fields (waiverforever_email st) = Ok (waiverforever_email st').
Proof.
  unfold scan_waiver, waiver_date_of.
  destruct (getitem w "received_at") as [t|]; simpl; [|discriminate].
  destruct (fromtimestamp local_datetime t) as [d|]; simpl; [|discriminate].
  destruct (datetime_add d (timedelta WAIVER_VALIDITY)) as [x|]; simpl; [|discriminate].
  destruct (getitem w "data") as [data|]; simpl; [|discriminate].
  destruct (iter data) as [fields|]; simpl; [|discriminate].
  destruct (scan_fields fields (waiverforever_email st)) as [em|] eqn:Hem;
    simpl; [|discriminate].
  intros [= <-]. simpl. exists d, fields. by repeat split.
Qed.

(** C5. The [dates] of an emitted item hold one date per waiver of the
    search result, in the order of the waivers, and its [wf_email] is the
    last email field over all of them.  The loop body runs on every
    waiver, from whatever state the waivers before it left, also one in
    which [is_current] is already true: it appends the date of the
    waiver and scans its fields for an email, starting from the email
    kept so far. *)
Theorem dates_cover_every_waiver (local_datetime : Z → result datetime)
    (lower : string → string) (rd : list registration)
    (end_date : datetime) (out : list dict) (i : nat) (reg : registration) :
  process_waiver_data local_datetime lower rd end_date = Ok out →
  rd !! i = Some reg →
  ∃ ws ds item,
    waivers_of reg = Ok ws ∧
    out !! i = Some item ∧
    item !! "dates" = Some (VList (VDatetime <$> ds)) ∧
    Forall2 (fun w d => waiver_date_of local_datetime w = Ok d) ws ds ∧
    length ds = length ws ∧
    item !! "wf_email" = Some (default (VStr "") (last (email_fields_seen ws))) ∧
    ∀ ws1 w ws2, ws = ws1 ++ w :: ws2 →
      ∃ st1 st2 d fields,
        scan_waivers local_datetime end_date ws1 scan_init = Ok st1 ∧
        scan_waiver local_datetime end_date st1 w = Ok st2 ∧
        waiver_date_of local_datetime w = Ok d ∧
        dates st2 = dates st1 ++ [d] ∧
        getitem w "data" ≫= iter = Ok fields ∧
        scan_fields fields (waiverforever_email st1) = Ok (waiverforever_email st2).
Proof.
  intros Hrun Hreg.
  destruct (reconciled_at _ _ _ _ _ _ _ Hrun Hreg) as (ws & st & Hws & Hscan & _ & Hi).
  destruct (scan_waivers_ok _ _ _ _ _ Hscan) as ((ds & HF & Hds) & _ & Hem).
  exists ws, ds, (make_item (eventbrite_data reg) st).
  split; [exact Hws |]. split; [exact Hi |].
  split; [|split; [exact HF |split; [|split]]].
  - destruct (make_item_lookup (eventbrite_data reg) st) as (_ & _ & _ & _ & -> & _).
    by rewrite Hds.
  - symmetry. by eapply Forall2_length.
  - destruct (make_item_lookup (eventbrite_data reg) st) as (-> & _).
    by rewrite Hem.
  - intros ws1 w ws2 ->. rewrite scan_waivers_app in Hscan.
    apply bind_Ok in Hscan as (st1 & Hst1 & Hrest). simpl in Hrest.
    apply bind_Ok in Hrest as (st2 & Hst2 & _).
    destruct (scan_waiver_parts _ _ _ _ _ Hst2) as (d & fields & Hd & Hdates & Hf & Hsf).
    exists st1, st2, d, fields. by repeat split.
Qed.

Lemma dates_cover_every_waiver_witness :
  ∃ ws ds item,
    waivers_of reg_alice = Ok ws ∧
    [item_alice; item_carol] !! 0%nat = Some item ∧
    item !! "dates" = Some (VList (VDatetime <$> ds)) ∧
    Forall2 (fun w d => waiver_date_of utc w = Ok d) ws ds ∧
    length ds = length ws ∧
    item !! "wf_email" = Some (default (VStr "") (last (email_fields_seen ws))) ∧
    ∀ ws1 w ws2, ws = ws1 ++ w :: ws2 →
      ∃ st1 st2 d fields,
        scan_waivers utc t_2024_06_01 ws1 scan_init = Ok st1 ∧
        scan_waiver utc t_2024_06_01 st1 w = Ok st2 ∧
        waiver_date_of utc w = Ok d ∧
        dates st2 = dates st1 ++ [d] ∧
        getitem w "data" ≫= iter = Ok fields ∧
        scan_fields fields (waiverforever_email st1) = Ok (waiverforever_email st2).
Proof.
  apply (dates_cover_every_waiver utc ascii_lower [reg_alice; reg_carol] t_2024_06_01
           [item_alice; item_carol] 0 reg_alice).
  - vm_compute. reflexivity.
  - reflexivity.
Defined.

(** C6. The [wf_email] of an emitted item is the value of the last
    email-typed field met across the waivers in scan order, and the empty
    string when no waiver has one. *)
Theorem wf_email_is_last_email_field (local_datetime : Z → result datetime)
    (lower : string → string) (rd : list registration)
    (end_date : datetime) (out : list dict) (i : nat) (reg : registration) :
  process_waiver_data local_datetime lower rd end_date = Ok out →
  rd !! i = Some reg →
  ∃ ws item,
    waivers_of reg = Ok ws ∧
    out !! i = Some item ∧
    item !! "wf_email" = Some (default (VStr "") (last (email_fields_seen ws))).
Proof.
  intros Hrun Hreg.
  destruct (reconciled_at _ _ _ _ _ _ _ Hrun Hreg) as (ws & st & Hws & Hscan & _ & Hi).
  apply scan_waivers_ok in Hscan as (_ & _ & Hem).
  exists ws, (make_item (eventbrite_data reg) st).
  split; [exact Hws |]. split; [exact Hi |].
  destruct (make_item_lookup (eventbrite_data reg) st) as (-> & _).
  by rewrite Hem.
Qed.

Lemma wf_email_is_last_email_field_witness :
  ∃ ws item,
    waivers_of reg_alice = Ok ws ∧
    [item_alice; item_carol] !! 0%nat = Some item ∧
    item !! "wf_email" = Some (default (VStr "") (last (email_fields_seen ws))).
Proof.
  apply (wf_email_is_last_email_field utc ascii_lower [reg_alice; reg_carol] t_2024_06_01
           [item_alice; item_carol] 0 reg_alice).
  - vm_compute. reflexivity.
  - reflexivity.
Defined.


(** C3, as stated, fails: a mismatching email field of an earlier waiver
    is overwritten by the email field of a later one, and the run
    completes. *)
Lemma earlier_mismatch_is_overwritten :
  waivers_of reg_overwritten = Ok [w_bob; w_new] ∧
  email_fields_of w_bob = [VStr "bob@x.com"] ∧
  ¬ same_email ascii_lower "bob@x.com" (email (eventbrite_data reg_overwritten)) ∧
  process_waiver_data utc ascii_lower [reg_overwritten; reg_carol] t_2024_06_01 =
    Ok [item_overwritten; item_carol].
Proof.
  split; [reflexivity |]. split; [reflexivity |]. split.
  - unfold same_email. vm_compute. discriminate.
  - vm_compute. reflexivity.
Qed.

(** C3, amended. When the waivers of a registrant are scanned without
    error and the last email-typed field met is a non-empty string that
    differs, up to case, from the registrant's email, the run, having
    processed the registrants before without error, ends in an
    [AssertionError] whose message holds both emails; the registrants
    after are not looked at. *)
Theorem last_email_mismatch_aborts (local_datetime : Z → result datetime)
    (lower : string → string) (end_date : datetime)
    (pre post : list registration) (reg : registration) (acc : list dict)
    (ws : list value) (st : scan_state) (s : string) :
  process_waiver_data local_datetime lower pre end_date = Ok acc →
  waivers_of reg = Ok ws →
  scan_waivers local_datetime end_date ws scan_init = Ok st →
  last (email_fields_seen ws) = Some (VStr s) →
  s ≠ "" →
  ¬ same_email lower s (email (eventbrite_data reg)) →
  process_waiver_data local_datetime lower (pre ++ reg :: post) end_date =
    Raise (AssertionError (mismatch_message s (email (eventbrite_data reg)))).
Proof.
  intros Hpre Hws Hscan Hlast Hne Hdiff.
  apply (process_waiver_data_raise _ _ _ _ _ _ _ _ Hpre).
  unfold process_registration. rewrite Hws. simpl. rewrite Hscan. simpl.
  apply scan_waivers_ok in Hscan as (_ & _ & ->). rewrite Hlast. simpl.
  rewrite bool_decide_eq_false_2 by exact Hne.
  rewrite bool_decide_eq_false_2 by exact Hdiff.
  reflexivity.
Qed.

Lemma last_email_mismatch_aborts_witness :
  process_waiver_data utc ascii_lower ([reg_carol] ++ reg_mismatch :: [reg_no_list]) t_2024_06_01 =
    Raise (AssertionError (mismatch_message "bob@x.com" "alice@x.com")).
Proof.
  apply (last_email_mismatch_aborts utc ascii_lower t_2024_06_01 [reg_carol] [reg_no_list]
           reg_mismatch [item_carol] [w_new; w_bob]
           {| dates := [t_2023_12_01; t_2023_12_01]; is_current := true;
              waiverforever_email := VStr "bob@x.com" |} "bob@x.com").
  - vm_compute. reflexivity.
  - reflexivity.
  - vm_compute. reflexivity.
  - reflexivity.
  - discriminate.
  - unfold same_email. vm_compute. discriminate.
Defined.

(** C4, as stated, fails: a lookup result without a waiver list raises
    [KeyError]. *)
Lemma absent_waiver_list_raises :
  getitem (waiverforever_data reg_no_list) "data" = Ok (VDict []) ∧
  process_waiver_data utc ascii_lower [reg_no_list] t_2024_06_01 = Raise (KeyError "waivers").
Proof. split; reflexivity. Qed.

(** C4, amended. For a registrant whose lookup result holds a waiver list
    with no waiver in it, reconciliation raises no error and emits
    [is_current] false, [dates] empty and [wf_email] the empty string. *)
Theorem no_waivers_not_current (local_datetime : Z → result datetime)
    (lower : string → string) (end_date : datetime)
    (reg : registration) :
  waivers_of reg = Ok [] →
  ∃ item,
    process_registration local_datetime lower end_date reg = Ok item ∧
    item !! "is_current" = Some (VBool false) ∧
    item !! "dates" = Some (VList []) ∧
    item !! "wf_email" = Some (VStr "") ∧
    ∀ rd out i,
      process_waiver_data local_datetime lower rd end_date = Ok out →
      rd !! i = Some reg → out !! i = Some item.
Proof.
  intros Hws. exists (make_item (eventbrite_data reg) scan_init).
  assert (Hbody : process_registration local_datetime lower end_date reg =
                  Ok (make_item (eventbrite_data reg) scan_init)).
  { unfold process_registration. rewrite Hws. reflexivity. }
  split; [exact Hbody |]. repeat split.
  intros rd out i Hrun Hreg.
  destruct (process_waiver_data_lookup _ _ _ _ _ _ _ Hrun Hreg) as (item & Hi & Hb).
  rewrite Hbody in Hb. by injection Hb as <-.
Qed.

Lemma no_waivers_not_current_witness :
  ∃ item,
    process_registration utc ascii_lower t_2024_06_01 reg_carol = Ok item ∧
    item !! "is_current" = Some (VBool false) ∧
    item !! "dates" = Some (VList []) ∧
    item !! "wf_email" = Some (VStr "") ∧
    ∀ rd out i,
      process_waiver_data utc ascii_lower rd t_2024_06_01 = Ok out →
      rd !! i = Some reg_carol → out !! i = Some item.
Proof.
  apply (no_waivers_not_current utc ascii_lower t_2024_06_01 reg_carol). reflexivity.
Defined.

(** ** Dependence on the host *)

Section Ext.
Variables local_datetime1 local_datetime2 : Z → result datetime.
Variable lower : string → string.
Variable end_date : datetime.

Lemma scan_waiver_ext (st : scan_state) (w : value) :
  converts_alike local_datetime1 local_datetime2 w →
  scan_waiver local_datetime1 end_date st w = scan_waiver local_datetime2 end_date st w.
Proof.
  intros Hw. unfold scan_waiver.
  destruct (getitem w "received_at") as [t|] eqn:Ht; simpl; [|reflexivity].
  by rewrite (Hw t Ht).
Qed.

Lemma scan_waivers_ext (ws : list value) (st : scan_state) :
  (∀ w, w ∈ ws → converts_alike local_datetime1 local_datetime2 w) →
  scan_waivers local_datetime1 end_date ws st =
  scan_waivers local_datetime2 end_date ws st.
Proof.
  revert st. induction ws as [|w ws IH]; intros st Hall; simpl; [reflexivity |].
  rewrite scan_waiver_ext by (apply Hall; by left).
  destruct (scan_waiver local_datetime2 end_date st w); simpl; [|reflexivity].
  apply IH. intros w' Hw'. apply Hall. by right.
Qed.

Lemma process_registration_ext (reg : registration) :
  (∀ ws w, waivers_of reg = Ok ws → w ∈ ws →
           converts_alike local_datetime1 local_datetime2 w) →
  process_registration local_datetime1 lower end_date reg =
  process_registration local_datetime2 lower end_date reg.
Proof.
  intros Hall. unfold process_registration.
  destruct (waivers_of reg) as [ws|]; simpl; [|reflexivity].
  rewrite scan_waivers_ext; [reflexivity |]. intros w Hw. by apply (Hall ws).
Qed.

Lemma process_loop_ext (regs : list registration) (acc : list dict) :
  (∀ reg ws w, reg ∈ regs → waivers_of reg = Ok ws → w ∈ ws →
               converts_alike local_datetime1 local_datetime2 w) →
  process_loop local_datetime1 lower end_date regs acc =
  process_loop local_datetime2 lower end_date regs acc.
Proof.
  revert acc. induction regs as [|reg regs IH]; intros acc Hall; simpl;
    [reflexivity |].
  rewrite process_registration_ext
    by (intros ws w Hws Hw; apply (Hall reg ws w); [by left | done | done]).
  destruct (process_registration local_datetime2 lower end_date reg); simpl;
    [|reflexivity].
  apply IH. intros reg' ws w Hreg'. apply Hall. by right.
Qed.

End Ext.

(** C7, as stated, fails: the same registration data and end date give
    another output on a host whose local time is one hour ahead. *)
Lemma host_time_zone_changes_output :
  process_waiver_data utc ascii_lower [reg_edge] t_2024_06_01 =
    Ok [item_edge t_2023_06_02 false] ∧
  process_waiver_data utc_plus_1 ascii_lower [reg_edge] t_2024_06_01 =
    Ok [item_edge (t_2023_06_02 + 3600)%Z true] ∧
  process_waiver_data utc ascii_lower [reg_edge] t_2024_06_01 ≠
    process_waiver_data utc_plus_1 ascii_lower [reg_edge] t_2024_06_01.
Proof.
  split; [vm_compute; reflexivity |]. split; [vm_compute; reflexivity |].
  intros H. apply (f_equal (first_item_field "is_current")) in H.
  vm_compute in H. discriminate.
Qed.

(** C7, amended. Reconciliation is a function of the registration data,
    the end date, the 365-day constant and what the host makes of the
    received-at stamps in that data: two runs on the same inputs, on
    hosts that convert every stamp of the waivers to the same local
    datetime, or fail on it alike, give the same result, whatever the
    hosts do with other instants. *)
Theorem same_inputs_same_output (local_datetime1 local_datetime2 : Z → result datetime)
    (lower : string → string) (rd : list registration) (end_date : datetime) :
  (∀ reg ws w, reg ∈ rd → waivers_of reg = Ok ws → w ∈ ws →
               converts_alike local_datetime1 local_datetime2 w) →
  process_waiver_data local_datetime1 lower rd end_date =
  process_waiver_data local_datetime2 lower rd end_date.
Proof. intros H. unfold process_waiver_data. by apply process_loop_ext. Qed.

Lemma same_inputs_same_output_witness :
  process_waiver_data utc ascii_lower [reg_alice; reg_carol] t_2024_06_01 =
  process_waiver_data utc_but_at_epoch ascii_lower [reg_alice; reg_carol] t_2024_06_01.
Proof.
  apply (same_inputs_same_output utc utc_but_at_epoch ascii_lower).
  intros reg ws w Hreg Hws Hw t Ht.
  apply elem_of_cons in Hreg as [-> | Hreg].
  - injection Hws as <-.
    apply elem_of_cons in Hw as [-> | Hw].
    + injection Ht as <-. reflexivity.
    + apply elem_of_cons in Hw as [-> | Hw].
      * injection Ht as <-. reflexivity.
      * by apply elem_of_nil in Hw.
  - apply elem_of_cons in Hreg as [-> | Hreg].
    + injection Hws as <-. by apply elem_of_nil in Hw.
    + by apply elem_of_nil in Hreg.
Defined.


(** ** The console report *)

Lemma row_of_Some (item : dict) (e f l : string) (c : bool) :
  row_of item = Some (e, f, l, c) →
  item !! "eb_email" = Some (VStr e) ∧
  item !! "eb_first_name" = Some (VStr f) ∧
  item !! "eb_last_name" = Some (VStr l) ∧
  item !! "is_current" = Some (VBool c).
Proof.
  unfold row_of. intros H.
  repeat case_match; try discriminate. by simplify_eq.
Qed.

Lemma not_current_row (item : dict) (r : string * string * string * bool) :
  row_of item = Some r → not_current item = row_invalid r.
Proof.
  destruct r as [[[e f] l] c]. intros H.
  apply row_of_Some in H as (_ & _ & _ & Hc).
  unfold not_current, get, row_invalid. by rewrite Hc.
Qed.

Lemma format_row_ok (item : dict) (r : string * string * string * bool) :
  row_of item = Some r → format_row item = Ok (table_row r).
Proof.
  destruct r as [[[e f] l] c]. intros H.
  apply row_of_Some in H as (He & Hf & Hl & _).
  unfold format_row, getitem_dict. by rewrite He, Hf, Hl.
Qed.

Lemma print_rows_ok (data : list dict)
    (rows : list (string * string * string * bool)) (stdout : list string) :
  Forall2 (fun item r => row_of item = Some r) data rows →
  print_rows data stdout =
    (stdout ++ (table_row <$> filter (fun r => row_invalid r = true) rows), None).
Proof.
  intros HF. revert stdout.
  induction HF as [|item r data rows Hr HF IH]; intros stdout; simpl.
  - by rewrite app_nil_r.
  - rewrite (not_current_row _ _ Hr), filter_cons.
    destruct (row_invalid r) eqn:Hinv.
    + rewrite (format_row_ok _ _ Hr), IH.
      rewrite decide_True by reflexivity. simpl. by rewrite <- app_assoc.
    + rewrite IH. by rewrite decide_False by discriminate.
Qed.

Lemma invalid_count_rows (data : list dict)
    (rows : list (string * string * string * bool)) :
  Forall2 (fun item r => row_of item = Some r) data rows →
  length (filter (fun item => not_current item = true) data) =
  length (filter (fun r => row_invalid r = true) rows).
Proof.
  induction 1 as [|item r data rows Hr HF IH]; [reflexivity |].
  rewrite !filter_cons, (not_current_row _ _ Hr).
  destruct (row_invalid r).
  - rewrite !decide_True by reflexivity. simpl. by rewrite IH.
  - by rewrite !decide_False by discriminate.
Qed.

(** Every item of a completed reconciliation reads as a row. *)
Lemma reconciled_rows (local_datetime : Z → result datetime)
    (lower : string → string) (rd : list registration)
    (end_date : datetime) (out : list dict) :
  process_waiver_data local_datetime lower rd end_date = Ok out →
  Forall2 (fun reg item =>
             ∃ c, row_of item =
                  Some (email (eventbrite_data reg), first_name (eventbrite_data reg),
                        last_name (eventbrite_data reg), c))
          rd out.
Proof.
  intros Hrun. apply process_waiver_data_ok in Hrun.
  eapply Forall2_impl; [exact Hrun |].
  intros reg item Hb. simpl in Hb.
  apply process_registration_ok in Hb as (ws & st & _ & _ & _ & ->).
  exists (is_current st). reflexivity.
Qed.

(** C8. For a reconciled sequence of [n] registrants of which [k] are not
    current, the report prints the count line "Found k invalid or missing
    waivers out of n waivers.", the two heading lines, and then one row
    per registrant that is not current, with email, first name and last
    name, in sequence order; nothing else, and no exception. *)
Theorem report_lists_invalid_registrants (data : list dict)
    (rows : list (string * string * string * bool)) :
  Forall2 (fun item r => row_of item = Some r) data rows →
  report_to_console data =
    ([ count_line (length (filter (fun r => row_invalid r = true) rows)) (length rows);
       "Invalid or missing waivers:";
       table_header ]
     ++ (table_row <$> filter (fun r => row_invalid r = true) rows),
     None).
Proof.
  intros HF. unfold report_to_console.
  rewrite (print_rows_ok _ _ _ HF), (invalid_count_rows _ _ HF).
  by rewrite (Forall2_length _ _ _ HF).
Qed.

Lemma report_lists_invalid_registrants_witness :
  report_to_console [item_alice; item_carol; item_dave] =
    ([ newline +:+ "Found 2 invalid or missing waivers out of 3 waivers.";
       "Invalid or missing waivers:";
       "Email                          Firstname       Lastname       ";
       "carol@x.com                    Carol           C              ";
       "dave@x.com                     Dave            D              " ],
     None).
Proof.
  apply (report_lists_invalid_registrants [item_alice; item_carol; item_dave]
           [("alice@x.com", "Alice", "A", true);
            ("carol@x.com", "Carol", "C", false);
            ("dave@x.com", "Dave", "D", false)]).
  repeat constructor.
Defined.


(** ** The date-formatting pass *)

Lemma map_strftime_ok (elems formatted : list value) :
  map_result strftime_value elems = Ok formatted →
  ∃ ds, elems = VDatetime <$> ds ∧
        formatted = (fun d => VStr (strftime d)) <$> ds.
Proof.
  revert formatted. induction elems as [|x elems IH]; intros formatted; simpl.
  - intros [= <-]. by exists [].
  - destruct x as [| | | | | |d]; simpl; try discriminate.
    destruct (map_result strftime_value elems) as [ys|]; simpl; [|discriminate].
    intros [= <-]. destruct (IH ys eq_refl) as (ds & -> & ->).
    by exists (d :: ds).
Qed.

Lemma chars_cons (c : Ascii.ascii) (s : string) :
  ∃ k l, chars (String c s) = VStr k :: l.
Proof.
  unfold chars. destruct s as [|c' s']; [by eexists _, _ |].
  change (code_points (String c (String c' s'))) with
    (if is_continuation c' then
       match code_points (String c' s') with
       | k :: l' => String c k :: l'
       | [] => [String c EmptyString]
       end
     else String c EmptyString :: code_points (String c' s')).
  destruct (is_continuation c'); [|by eexists _, _].
  destruct (code_points (String c' s')); by eexists _, _.
Qed.

(** A truthy [dates] that the comprehension gets through is a non-empty
    list of datetimes. *)
Lemma formatted_truthy (v : value) (elems formatted : list value) :
  truthy v = true →
  iter v = Ok elems →
  map_result strftime_value elems = Ok formatted →
  ∃ ds, v = VList (VDatetime <$> ds) ∧ VList formatted = formatted_dates ds.
Proof.
  intros Ht Hi Hm. destruct v as [| | |s|l|d|]; simpl in Hi; try discriminate.
  - destruct s as [|c s]; [discriminate |].
    injection Hi as <-. destruct (chars_cons c s) as (k & l & Hc).
    rewrite Hc in Hm. discriminate.
  - injection Hi as <-. apply map_strftime_ok in Hm as (ds & -> & ->).
    by exists ds.
  - destruct d as [|[k x] d]; [discriminate |].
    injection Hi as <-. discriminate.
Qed.

Lemma formatted_from_frame (d d' : dict) (k : string) :
  formatted_from d d' → k ≠ "dates" → d' !! k = d !! k.
Proof.
  unfold formatted_from. destruct (truthy (get d "dates")).
  - intros (ds & _ & ->) Hk. by rewrite lookup_insert_ne.
  - by intros ->.
Qed.

Lemma formatted_from_twice (d d' d'' : dict) :
  truthy (get d "dates") = true →
  formatted_from d d' → formatted_from d' d'' → False.
Proof.
  unfold formatted_from. intros Ht. rewrite Ht. intros (ds & Hds & ->).
  assert (Hne : ds ≠ []).
  { intros ->. unfold get in Ht. by rewrite Hds in Ht. }
  unfold get. rewrite lookup_insert_eq. simpl.
  destruct ds as [|x ds]; [done |]. simpl.
  intros (ds' & Hds' & _). unfold formatted_dates in Hds'.
  destruct ds'; simpl in Hds'; discriminate.
Qed.

Lemma format_items_ok (items : list loc) (h h' : store) :
  format_items items h = Ok h' →
  (∀ l, l ∉ items → h' l = h l) ∧
  (∀ l, l ∈ items →
     ∃ d d', h l = ODict d ∧ h' l = ODict d' ∧ formatted_from d d').
Proof.
  revert h. induction items as [|item rest IH]; intros h; simpl.
  - intros [= <-]. split; [done |]. intros l Hl. by apply elem_of_nil in Hl.
  - destruct (h item) as [d|] eqn:Hitem; [|discriminate].
    destruct (truthy (get d "dates")) eqn:Ht.
    + unfold getitem_dict.
      destruct (d !! "dates") as [v|] eqn:Hv; [|discriminate]. simpl.
      assert (Hget : get d "dates" = v) by (unfold get; by rewrite Hv).
      destruct (iter v) as [elems|] eqn:Hiter; simpl; [|discriminate].
      destruct (map_result strftime_value elems) as [formatted|] eqn:Hmap;
        simpl; [|discriminate].
      assert (Hv' : truthy v = true) by (by rewrite <- Hget).
      destruct (formatted_truthy _ _ _ Hv' Hiter Hmap) as (ds & -> & ->).
      intros Hrest. apply IH in Hrest as (Hout & Hin).
      assert (Hone : formatted_from d (<["dates" := formatted_dates ds]> d)).
      { unfold formatted_from. rewrite Ht. by exists ds. }
      assert (Hfresh : item ∉ rest).
      { intros Hmem. destruct (Hin _ Hmem) as (d1 & d2 & Hd1 & _ & Hagain).
        rewrite fn_lookup_insert in Hd1. injection Hd1 as <-.
        by eapply (formatted_from_twice d). }
      split.
      * intros l Hl. apply not_elem_of_cons in Hl as [Hne Hl].
        rewrite (Hout _ Hl). by rewrite fn_lookup_insert_ne.
      * intros l Hl. apply elem_of_cons in Hl as [-> | Hl].
        -- exists d, (<["dates" := formatted_dates ds]> d).
           split; [exact Hitem |]. split; [|exact Hone].
           rewrite (Hout _ Hfresh). by rewrite fn_lookup_insert.
        -- destruct (Hin _ Hl) as (d1 & d2 & Hd1 & Hd2 & Hrel).
           rewrite fn_lookup_insert_ne in Hd1 by (intros ->; contradiction).
           eauto.
    + intros Hrest. apply IH in Hrest as (Hout & Hin). split.
      * intros l Hl. apply not_elem_of_cons in Hl as [_ Hl]. by apply Hout.
      * intros l Hl. apply elem_of_cons in Hl as [-> | Hl]; [|by apply Hin].
        destruct (decide (item ∈ rest)) as [Hmem | Hmem]; [by apply Hin |].
        exists d, d. split; [exact Hitem |]. split; [by rewrite (Hout _ Hmem) |].
        unfold formatted_from. by rewrite Ht.
Qed.

Lemma map_strftime_datetimes (ds : list datetime) :
  map_result strftime_value (VDatetime <$> ds) =
  Ok ((fun d => VStr (strftime d)) <$> ds).
Proof.
  induction ds as [|d ds IH]; [reflexivity |].
  rewrite !fmap_cons. simpl. by rewrite IH.
Qed.

(** The pass completes on reconciled items that sit at pairwise distinct
    locations, as [process_waiver_data] builds them. *)
Lemma format_items_reconciled (items : list loc) (h : store) :
  NoDup items →
  (∀ l, l ∈ items → ∃ r st, h l = ODict (make_item r st)) →
  ∃ h', format_items items h = Ok h'.
Proof.
  intros Hnd. revert h. induction Hnd as [|item rest Hfresh Hnd IH]; intros h Hall.
  - by exists h.
  - destruct (Hall item) as (r & st & Hitem); [by left |].
    simpl. rewrite Hitem.
    assert (Hdates : make_item r st !! "dates" = Some (VList (VDatetime <$> dates st)))
      by apply make_item_lookup.
    unfold get, getitem_dict. rewrite Hdates. simpl.
    destruct (negb (bool_decide (VDatetime <$> dates st = []))).
    + rewrite map_strftime_datetimes. simpl. apply IH.
      intros l Hl. rewrite fn_lookup_insert_ne by (intros ->; contradiction).
      apply Hall. by right.
    + apply IH. intros l Hl. apply Hall. by right.
Qed.

(** C10. On a list of items, [prepare_data_for_reporting] returns the
    reference it was given; the list keeps its items in their order;
    objects outside the list are untouched; and in each item every key
    but ['dates'] keeps its value, an item whose [dates] is missing or
    empty stays as it is, and otherwise each date of [dates] is replaced
    by its formatted string. *)
Theorem prepare_changes_only_dates (data : loc) (h : store) (items : list loc)
    (r : loc) (h' : store) :
  h data = OList items →
  prepare_data_for_reporting data h = Ok (r, h') →
  r = data ∧
  h' data = OList items ∧
  (∀ l, l ∉ items → h' l = h l) ∧
  (∀ l, l ∈ items →
     ∃ d d',
       h l = ODict d ∧ h' l = ODict d' ∧
       (∀ k, k ≠ "dates" → d' !! k = d !! k) ∧
       (d !! "dates" = None ∨ d !! "dates" = Some (VList []) → d' = d) ∧
       (truthy (get d "dates") = false → d' = d) ∧
       (truthy (get d "dates") = true →
        ∃ ds, d !! "dates" = Some (VList (VDatetime <$> ds)) ∧
              d' !! "dates" = Some (formatted_dates ds))).
Proof.
  intros Hdata. unfold prepare_data_for_reporting. rewrite Hdata.
  destruct (format_items items h) as [h1|] eqn:Hloop; simpl; [|discriminate].
  intros [= <- <-]. apply format_items_ok in Hloop as (Hout & Hin).
  assert (Hself : data ∉ items).
  { intros Hmem. destruct (Hin _ Hmem) as (d & _ & Hd & _). congruence. }
  split; [reflexivity |]. split; [by rewrite (Hout _ Hself) |].
  split; [exact Hout |].
  intros l Hl. destruct (Hin _ Hl) as (d & d' & Hd & Hd' & Hrel).
  exists d, d'. split; [exact Hd |]. split; [exact Hd' |].
  split; [intros k; by apply formatted_from_frame |].
  unfold formatted_from in Hrel. split; [|split].
  - intros Hfalsy. unfold get in Hrel.
    by destruct Hfalsy as [Hnone | Hnil]; rewrite ?Hnone, ?Hnil in Hrel.
  - intros Ht. by rewrite Ht in Hrel.
  - intros Ht. rewrite Ht in Hrel. destruct Hrel as (ds & Hds & ->).
    exists ds. split; [exact Hds | by rewrite lookup_insert_eq].
Qed.

Lemma prepare_changes_only_dates_witness :
  prepare_data_for_reporting 0 sample_store = Ok (0, sample_store_formatted) ∧
  sample_store_formatted 0 = OList [1; 2; 3] ∧
  (∀ l, l ∉ [1; 2; 3] → sample_store_formatted l = sample_store l) ∧
  (∀ l, l ∈ [1; 2; 3] →
     ∃ d d',
       sample_store l = ODict d ∧ sample_store_formatted l = ODict d' ∧
       (∀ k, k ≠ "dates" → d' !! k = d !! k) ∧
       (d !! "dates" = None ∨ d !! "dates" = Some (VList []) → d' = d) ∧
       (truthy (get d "dates") = false → d' = d) ∧
       (truthy (get d "dates") = true →
        ∃ ds, d !! "dates" = Some (VList (VDatetime <$> ds)) ∧
              d' !! "dates" = Some (formatted_dates ds))).
Proof.
  assert (Hrun : prepare_data_for_reporting 0 sample_store =
                 Ok (0, sample_store_formatted)) by reflexivity.
  split; [exact Hrun |].
  apply (prepare_changes_only_dates 0 sample_store [1; 2; 3] 0
           sample_store_formatted eq_refl Hrun).
Defined.

(** ** Reconciliation: further properties *)

Lemma make_item_dom (r : Registrant) (st : scan_state) :
  dom (make_item r st) = item_keys.
Proof.
  unfold make_item, item_keys. rewrite !dom_insert_L, dom_singleton_L.
  simpl. set_solver.
Qed.

(** X1. A completed run emits one item per registrant, in order; the item
    carries that registrant's email, first name and last name, and has the
    six keys of line 122-129 and no other. *)
Theorem one_item_per_registrant (local_datetime : Z → result datetime)
    (lower : string → string) (rd : list registration)
    (end_date : datetime) (out : list dict) :
  process_waiver_data local_datetime lower rd end_date = Ok out →
  length out = length rd ∧
  Forall2 (fun reg item =>
             item !! "eb_email" = Some (VStr (email (eventbrite_data reg))) ∧
             item !! "eb_first_name" = Some (VStr (first_name (eventbrite_data reg))) ∧
             item !! "eb_last_name" = Some (VStr (last_name (eventbrite_data reg))) ∧
             dom item = item_keys)
          rd out.
Proof.
  intros Hrun. apply process_waiver_data_ok in Hrun. split.
  - symmetry. by eapply Forall2_length.
  - eapply Forall2_impl; [exact Hrun |].
    intros reg item Hb. simpl in Hb.
    apply process_registration_ok in Hb as (ws & st & _ & _ & _ & ->).
    split; [reflexivity |]. split; [reflexivity |]. split; [reflexivity |].
    apply make_item_dom.
Qed.

Lemma one_item_per_registrant_witness :
  length [item_alice; item_carol] = length [reg_alice; reg_carol] ∧
  Forall2 (fun reg item =>
             item !! "eb_email" = Some (VStr (email (eventbrite_data reg))) ∧
             item !! "eb_first_name" = Some (VStr (first_name (eventbrite_data reg))) ∧
             item !! "eb_last_name" = Some (VStr (last_name (eventbrite_data reg))) ∧
             dom item = item_keys)
          [reg_alice; reg_carol] [item_alice; item_carol].
Proof.
  apply (one_item_per_registrant utc ascii_lower [reg_alice; reg_carol] t_2024_06_01).
  vm_compute. reflexivity.
Defined.

Lemma process_loop_acc (local_datetime : Z → result datetime)
    (lower : string → string) (end_date : datetime)
    (regs : list registration) (acc : list dict) :
  process_loop local_datetime lower end_date regs acc =
  process_loop local_datetime lower end_date regs [] ≫= fun out => Ok (acc ++ out).
Proof.
  revert acc. induction regs as [|reg regs IH]; intros acc; simpl.
  - by rewrite app_nil_r.
  - destruct (process_registration local_datetime lower end_date reg) as [item|x]; simpl;
      [|reflexivity].
    rewrite (IH (acc ++ [item])), (IH [item]).
    destruct (process_loop local_datetime lower end_date regs []) as [out|x]; simpl;
      [|reflexivity].
    by rewrite <- app_assoc.
Qed.

(** X2. Reconciling a list of registrants in two batches gives what one
    run gives: the items of the first batch followed by those of the
    second, or the exception of the first batch that raises. *)
Theorem process_waiver_data_batches (local_datetime : Z → result datetime)
    (lower : string → string) (end_date : datetime)
    (rd1 rd2 : list registration) :
  process_waiver_data local_datetime lower (rd1 ++ rd2) end_date =
  out1 ← process_waiver_data local_datetime lower rd1 end_date;
  out2 ← process_waiver_data local_datetime lower rd2 end_date;
  Ok (out1 ++ out2).
Proof.
  unfold process_waiver_data. rewrite process_loop_app.
  destruct (process_loop local_datetime lower end_date rd1 []) as [out1|x]; simpl;
    [|reflexivity].
  apply process_loop_acc.
Qed.

(** X3. When the last email-typed field met for a registrant holds a
    value that is not a string (a JSON null, number, list or object), the
    run ends in [AttributeError]: the assertion calls [lower] on it. *)
Theorem non_string_email_aborts (local_datetime : Z → result datetime)
    (lower : string → string) (end_date : datetime)
    (pre post : list registration) (reg : registration) (acc : list dict)
    (ws : list value) (st : scan_state) (v : value) :
  process_waiver_data local_datetime lower pre end_date = Ok acc →
  waivers_of reg = Ok ws →
  scan_waivers local_datetime end_date ws scan_init = Ok st →
  last (email_fields_seen ws) = Some v →
  (∀ s, v ≠ VStr s) →
  process_waiver_data local_datetime lower (pre ++ reg :: post) end_date = Raise AttributeError.
Proof.
  intros Hpre Hws Hscan Hlast Hv.
  apply (process_waiver_data_raise _ _ _ _ _ _ _ _ Hpre).
  unfold process_registration. rewrite Hws. simpl. rewrite Hscan. simpl.
  apply scan_waivers_ok in Hscan as (_ & _ & ->). rewrite Hlast. simpl.
  destruct v as [| | |s| | |]; try reflexivity. by destruct (Hv s).
Qed.

Lemma non_string_email_aborts_witness :
  process_waiver_data utc ascii_lower ([reg_carol] ++ reg_null_email :: [reg_alice]) t_2024_06_01 =
  Raise AttributeError.
Proof.
  apply (non_string_email_aborts utc ascii_lower t_2024_06_01 [reg_carol] [reg_alice]
           reg_null_email [item_carol]
           [waiver t_2023_12_01 [VDict [("type", VStr "email_field"); ("value", VNone)]]]
           {| dates := [t_2023_12_01]; is_current := true;
              waiverforever_email := VNone |} VNone).
  - vm_compute. reflexivity.
  - reflexivity.
  - vm_compute. reflexivity.
  - reflexivity.
  - discriminate.
Defined.

(** *** Two cutoffs *)

Section Cutoff.
Variable local_datetime : Z → result datetime.
Variable lower : string → string.
Variables end_date end_date' : datetime.
Variable Rb : bool → bool → Prop.
Hypothesis Rb_step : ∀ (d : Z) (b b' : bool),
  Rb b b' →
  Rb (if (d >? end_date)%Z then true else b)
     (if (d >? end_date')%Z then true else b').

Lemma scan_waiver_rel (st st' : scan_state) (w : value) :
  state_rel Rb st st' →
  result_rel (state_rel Rb)
    (scan_waiver local_datetime end_date st w) (scan_waiver local_datetime end_date' st' w).
Proof.
  intros (Hd & He & Hb). unfold scan_waiver.
  destruct (getitem w "received_at") as [t|]; simpl; [|reflexivity].
  destruct (fromtimestamp local_datetime t) as [d|]; simpl; [|reflexivity].
  destruct (datetime_add d (timedelta WAIVER_VALIDITY)) as [x|]; simpl; [|reflexivity].
  destruct (getitem w "data") as [data|]; simpl; [|reflexivity].
  destruct (iter data) as [fields|]; simpl; [|reflexivity].
  rewrite <- He.
  destruct (scan_fields fields (waiverforever_email st)) as [em|]; simpl;
    [|reflexivity].
  split; [by rewrite Hd |]. split; [reflexivity |]. by apply Rb_step.
Qed.

Lemma scan_waivers_rel (ws : list value) (st st' : scan_state) :
  state_rel Rb st st' →
  result_rel (state_rel Rb)
    (scan_waivers local_datetime end_date ws st) (scan_waivers local_datetime end_date' ws st').
Proof.
  revert st st'. induction ws as [|w ws IH]; intros st st' Hrel; simpl.
  - exact Hrel.
  - pose proof (scan_waiver_rel st st' w Hrel) as Hw.
    destruct (scan_waiver local_datetime end_date st w) as [s|x],
             (scan_waiver local_datetime end_date' st' w) as [s'|x']; simpl in *;
      try contradiction; [by apply IH | exact Hw].
Qed.

Lemma process_registration_rel (reg : registration) :
  Rb false false →
  result_rel (item_rel Rb)
    (process_registration local_datetime lower end_date reg)
    (process_registration local_datetime lower end_date' reg).
Proof.
  intros Hinit. unfold process_registration.
  destruct (waivers_of reg) as [ws|]; simpl; [|reflexivity].
  assert (H0 : state_rel Rb scan_init scan_init) by (by repeat split).
  pose proof (scan_waivers_rel ws _ _ H0) as Hs.
  destruct (scan_waivers local_datetime end_date ws scan_init) as [st|x],
           (scan_waivers local_datetime end_date' ws scan_init) as [st'|x']; simpl in *;
    try contradiction; [|exact Hs].
  destruct Hs as (Hd & He & Hb). rewrite <- He.
  destruct (assert_email _ _ _) as [[]|]; simpl; [|reflexivity].
  exists (eventbrite_data reg), st, st'. by repeat split.
Qed.

Lemma process_loop_rel (regs : list registration) (acc acc' : list dict) :
  Rb false false →
  Forall2 (item_rel Rb) acc acc' →
  result_rel (Forall2 (item_rel Rb))
    (process_loop local_datetime lower end_date regs acc)
    (process_loop local_datetime lower end_date' regs acc').
Proof.
  intros Hinit. revert acc acc'.
  induction regs as [|reg regs IH]; intros acc acc' Hacc; simpl.
  - exact Hacc.
  - pose proof (process_registration_rel reg Hinit) as Hr.
    destruct (process_registration local_datetime lower end_date reg) as [item|x],
             (process_registration local_datetime lower end_date' reg) as [item'|x'];
      simpl in *; try contradiction; [|exact Hr].
    apply IH. apply Forall2_app; [exact Hacc | by constructor].
Qed.

End Cutoff.

(** X4. Which exception ends a run does not depend on the end date: the
    same registration data raises the same exception under any cutoff. *)
Theorem exception_independent_of_end_date (local_datetime : Z → result datetime)
    (lower : string → string)
    (rd : list registration) (end_date end_date' : datetime) (x : exn) :
  process_waiver_data local_datetime lower rd end_date = Raise x →
  process_waiver_data local_datetime lower rd end_date' = Raise x.
Proof.
  intros Hrun.
  pose proof (process_loop_rel local_datetime lower end_date end_date' (fun _ _ => True)
                (fun _ _ _ _ => I) rd [] [] I ltac:(constructor)) as Hrel.
  unfold process_waiver_data in *. rewrite Hrun in Hrel.
  destruct (process_loop local_datetime lower end_date' rd []) as [out'|x']; simpl in Hrel;
    [contradiction | by rewrite Hrel].
Qed.

Lemma exception_independent_of_end_date_witness :
  process_waiver_data utc ascii_lower [reg_carol; reg_no_list] 0%Z = Raise (KeyError "waivers").
Proof.
  apply (exception_independent_of_end_date utc ascii_lower [reg_carol; reg_no_list]
           t_2024_06_01 0%Z (KeyError "waivers")).
  reflexivity.
Defined.

(** X5. Moving the end date earlier never loses a verdict: the run still
    completes, every item keeps all its other fields, and an item that
    was current stays current. *)
Theorem earlier_end_date_keeps_current (local_datetime : Z → result datetime)
    (lower : string → string)
    (rd : list registration) (end_date end_date' : datetime) (out : list dict) :
  (end_date' ≤ end_date)%Z →
  process_waiver_data local_datetime lower rd end_date = Ok out →
  ∃ out',
    process_waiver_data local_datetime lower rd end_date' = Ok out' ∧
    Forall2 (fun item item' =>
               (∀ k, k ≠ "is_current" → item' !! k = item !! k) ∧
               (item !! "is_current" = Some (VBool true) →
                item' !! "is_current" = Some (VBool true)))
            out out'.
Proof.
  intros Hle Hrun.
  assert (Hstep : ∀ (d : Z) (b b' : bool),
            (b = true → b' = true) →
            (if (d >? end_date)%Z then true else b) = true →
            (if (d >? end_date')%Z then true else b') = true).
  { intros d b b' Hb. destruct (Z.gtb_spec d end_date), (Z.gtb_spec d end_date');
      try done; lia. }
  pose proof (process_loop_rel local_datetime lower end_date end_date'
                (fun b b' => b = true → b' = true) Hstep rd [] []
                (fun H => H) ltac:(constructor)) as Hrel.
  unfold process_waiver_data in *. rewrite Hrun in Hrel.
  destruct (process_loop local_datetime lower end_date' rd []) as [out'|x']; simpl in Hrel;
    [|contradiction].
  exists out'. split; [reflexivity |].
  eapply Forall2_impl; [exact Hrel |].
  intros item item' (r & st & st' & -> & -> & Hd & He & Hb). split.
  - intros k Hk. unfold make_item. rewrite Hd, He.
    rewrite !lookup_insert. repeat case_decide; try reflexivity.
    rewrite !lookup_singleton. case_decide; [congruence | reflexivity].
  - destruct (make_item_lookup r st) as (_ & _ & _ & _ & _ & ->).
    destruct (make_item_lookup r st') as (_ & _ & _ & _ & _ & ->).
    intros [= Hc]. by rewrite (Hb Hc).
Qed.

Lemma earlier_end_date_keeps_current_witness :
  ∃ out',
    process_waiver_data utc ascii_lower [reg_alice; reg_carol] t_2023_12_01 = Ok out' ∧
    Forall2 (fun item item' =>
               (∀ k, k ≠ "is_current" → item' !! k = item !! k) ∧
               (item !! "is_current" = Some (VBool true) →
                item' !! "is_current" = Some (VBool true)))
            [item_alice; item_carol] out'.
Proof.
  apply (earlier_end_date_keeps_current utc ascii_lower [reg_alice; reg_carol]
           t_2024_06_01 t_2023_12_01 [item_alice; item_carol]).
  - vm_compute. discriminate.
  - vm_compute. reflexivity.
Defined.

(** *** The order of the waivers *)

Lemma scan_fields_state_free (fields : list value) (em em' x : value) :
  scan_fields fields em = Ok x → ∃ x', scan_fields fields em' = Ok x'.
Proof.
  revert em em' x. induction fields as [|field rest IH]; intros em em' x; simpl.
  - eauto.
  - destruct (getitem field "type") as [ty|]; simpl; [|discriminate].
    destruct (eq_str ty "email_field"); [|apply IH].
    destruct (getitem field "value") as [v|]; simpl; [eauto | discriminate].
Qed.

Section Order.
Variable local_datetime : Z → result datetime.
Variable end_date : datetime.

Lemma scan_waiver_state_free (st st' s : scan_state) (w : value) :
  scan_waiver local_datetime end_date st w = Ok s →
  ∃ s', scan_waiver local_datetime end_date st' w = Ok s'.
Proof.
  unfold scan_waiver.
  destruct (getitem w "received_at") as [t|]; simpl; [|discriminate].
  destruct (fromtimestamp local_datetime t) as [d|]; simpl; [|discriminate].
  destruct (datetime_add d (timedelta WAIVER_VALIDITY)) as [x|]; simpl; [|discriminate].
  destruct (getitem w "data") as [data|]; simpl; [|discriminate].
  destruct (iter data) as [fields|]; simpl; [|discriminate].
  destruct (scan_fields fields (waiverforever_email st)) as [em|] eqn:Hem;
    simpl; [|discriminate].
  intros _. destruct (scan_fields_state_free _ _ (waiverforever_email st') _ Hem)
    as (em' & ->). simpl. eauto.
Qed.

Lemma scan_waivers_succeeds (ws : list value) (st : scan_state) :
  (∃ s, scan_waivers local_datetime end_date ws st = Ok s) ↔
  Forall (fun w => ∃ s, scan_waiver local_datetime end_date scan_init w = Ok s) ws.
Proof.
  revert st. induction ws as [|w ws IH]; intros st; simpl.
  - split; [constructor | eauto].
  - rewrite Forall_cons. split.
    + intros (s & Hs). apply bind_Ok in Hs as (s1 & Hw & Hrest). split.
      * by eapply scan_waiver_state_free.
      * apply (IH s1). eauto.
    + intros ((s0 & Hw) & Hrest).
      destruct (scan_waiver_state_free _ st _ _ Hw) as (s1 & Hs1).
      rewrite Hs1. simpl. by apply IH.
Qed.

Lemma dates_determined (ws : list value) (ds : list datetime) :
  Forall2 (fun w d => waiver_date_of local_datetime w = Ok d) ws ds →
  ds = (fun w => match waiver_date_of local_datetime w with
                 | Ok d => d
                 | Raise _ => 0%Z
                 end) <$> ws.
Proof.
  induction 1 as [|w d ws ds Hd HF IH]; [reflexivity |].
  rewrite fmap_cons, Hd. by f_equal.
Qed.

Lemma scan_waivers_permutation (ws ws' : list value) (st : scan_state) :
  ws ≡ₚ ws' →
  scan_waivers local_datetime end_date ws scan_init = Ok st →
  ∃ st',
    scan_waivers local_datetime end_date ws' scan_init = Ok st' ∧
    is_current st' = is_current st ∧
    dates st' ≡ₚ dates st.
Proof.
  intros Hperm Hscan.
  assert (Hok : ∃ s, scan_waivers local_datetime end_date ws' scan_init = Ok s).
  { apply scan_waivers_succeeds. rewrite <- Hperm.
    apply (scan_waivers_succeeds ws scan_init). eauto. }
  destruct Hok as (st' & Hscan'). exists st'. split; [exact Hscan' |].
  apply scan_waivers_ok in Hscan as ((ds & HF & Hds) & Hcur & _).
  apply scan_waivers_ok in Hscan' as ((ds' & HF' & Hds') & Hcur' & _).
  split.
  - rewrite Hcur, Hcur'. f_equal. apply eq_true_iff_eq.
    rewrite !existsb_exists. split; intros (w & Hin & Hw); exists w;
      (split; [|exact Hw]); apply list_elem_of_In; apply list_elem_of_In in Hin.
    + by rewrite Hperm.
    + by rewrite <- Hperm.
  - rewrite Hds, Hds'. simpl.
    rewrite (dates_determined _ _ HF), (dates_determined _ _ HF').
    by rewrite Hperm.
Qed.

End Order.

(** X6. The order in which the search returns the waivers of a registrant
    does not change the verdict.  With the waivers permuted, the registrant
    is reconciled to the same [is_current] and the same dates in another
    order, unless the email kept, now that of another waiver, fails the
    assertion. *)
Theorem waiver_order_keeps_verdict (local_datetime : Z → result datetime)
    (lower : string → string) (end_date : datetime)
    (reg reg' : registration) (ws ws' : list value) (item : dict) :
  eventbrite_data reg' = eventbrite_data reg →
  waivers_of reg = Ok ws →
  waivers_of reg' = Ok ws' →
  ws ≡ₚ ws' →
  process_registration local_datetime lower end_date reg = Ok item →
  match process_registration local_datetime lower end_date reg' with
  | Ok item' =>
      item' !! "is_current" = item !! "is_current" ∧
      ∃ ds ds', item !! "dates" = Some (VList (VDatetime <$> ds)) ∧
                item' !! "dates" = Some (VList (VDatetime <$> ds')) ∧
                ds ≡ₚ ds'
  | Raise x => x = AttributeError ∨ ∃ msg, x = AssertionError msg
  end.
Proof.
  intros Heb Hws Hws' Hperm Hitem.
  apply process_registration_ok in Hitem as (ws0 & st & Hws0 & Hscan & _ & ->).
  rewrite Hws in Hws0. injection Hws0 as <-.
  destruct (scan_waivers_permutation _ _ _ _ _ Hperm Hscan) as (st' & Hscan' & Hc & Hd).
  assert (Hsame : ∀ r',
            make_item r' st' !! "is_current" =
              make_item (eventbrite_data reg) st !! "is_current" ∧
            ∃ ds ds',
              make_item (eventbrite_data reg) st !! "dates" =
                Some (VList (VDatetime <$> ds)) ∧
              make_item r' st' !! "dates" = Some (VList (VDatetime <$> ds')) ∧
              ds ≡ₚ ds').
  { intros r'. split.
    - destruct (make_item_lookup r' st') as (_ & _ & _ & _ & _ & ->).
      destruct (make_item_lookup (eventbrite_data reg) st) as (_ & _ & _ & _ & _ & ->).
      by rewrite Hc.
    - exists (dates st), (dates st').
      split; [apply make_item_lookup |]. split; [apply make_item_lookup | done]. }
  unfold process_registration. rewrite Hws'. simpl. rewrite Hscan'. simpl.
  unfold assert_email.
  destruct (waiverforever_email st') as [| | |s| | |]; simpl; try by left.
  destruct (bool_decide (s = "")); simpl; [apply Hsame |].
  destruct (bool_decide (lower s = lower _)); simpl; [apply Hsame |].
  right. eauto.
Qed.

Lemma waiver_order_keeps_verdict_witness :
  match process_registration utc ascii_lower t_2024_06_01
          (mkRegistration alice (search_result [w_old; w_new])) with
  | Ok item' =>
      item' !! "is_current" = item_alice !! "is_current" ∧
      ∃ ds ds', item_alice !! "dates" = Some (VList (VDatetime <$> ds)) ∧
                item' !! "dates" = Some (VList (VDatetime <$> ds')) ∧
                ds ≡ₚ ds'
  | Raise x => x = AttributeError ∨ ∃ msg, x = AssertionError msg
  end.
Proof.
  apply (waiver_order_keeps_verdict utc ascii_lower t_2024_06_01 reg_alice
           (mkRegistration alice (search_result [w_old; w_new]))
           [w_new; w_old] [w_old; w_new] item_alice).
  - reflexivity.
  - reflexivity.
  - reflexivity.
  - apply perm_swap.
  - vm_compute. reflexivity.
Defined.

(** *** Search results in the documented shape *)

Lemma waiver_date_typed (local_datetime : Z → result datetime) (w : Z * list (string * string)) :
  waiver_in_range local_datetime w = true →
  waiver_date_of local_datetime (encode_waiver w) = Ok (typed_date local_datetime w).
Proof.
  unfold waiver_in_range, waiver_date_of, typed_date. destruct w as [t fs]. simpl.
  by destruct (local_datetime t).
Qed.

(** X7. A search result in the documented shape, whose received-at
    stamps the host converts, whose expiries lie on the calendar and
    whose last email is empty or equals the registrant's once both are
    lowered, is reconciled without an exception: the dates are what the
    host made of the stamps, the verdict says whether one of them plus
    365 days passes the end date, and the email is the last email field,
    or the empty string. *)
Theorem well_formed_registration_item (local_datetime : Z → result datetime)
    (lower : string → string) (end_date : datetime)
    (r : Registrant) (ws : list (Z * list (string * string))) :
  Forall (fun w => waiver_in_range local_datetime w = true) ws →
  emails_agree lower r ws = true →
  process_registration local_datetime lower end_date
    (mkRegistration r (search_result (encode_waiver <$> ws))) =
  Ok (make_item r
        {| dates := typed_date local_datetime <$> ws;
           is_current := existsb (typed_current local_datetime end_date) ws;
           waiverforever_email := VStr (default "" (last (typed_emails ws))) |}).
Proof.
  intros HF Hagree.
  destruct (process_registration_typed local_datetime lower end_date r ws HF Hagree)
    as (item & Hitem).
  rewrite Hitem. f_equal.
  apply process_registration_ok in Hitem as (ws0 & st & Hws & Hscan & _ & ->).
  injection Hws as <-. f_equal.
  apply scan_waivers_ok in Hscan as ((ds & HF2 & Hds) & Hcur & Hem).
  destruct st as [sd sc se]. simpl in *. subst sd sc se. f_equal.
  - clear Hagree. revert ds HF2. induction HF as [|w ws Hw HF IH]; intros ds HF2.
    + by apply Forall2_nil_inv_l in HF2 as ->.
    + rewrite fmap_cons in HF2.
      apply Forall2_cons_inv_l in HF2 as (d & ds' & Hd & HF2 & ->).
      rewrite (waiver_date_typed _ _ Hw) in Hd. injection Hd as <-.
      rewrite fmap_cons. f_equal. by apply IH.
  - rewrite orb_false_r. clear Hagree HF2.
    induction HF as [|w ws Hw HF IH]; [reflexivity |].
    rewrite fmap_cons. simpl. rewrite IH.
    unfold waiver_current, typed_current. by rewrite (waiver_date_typed _ _ Hw).
  - rewrite email_fields_typed, fmap_last.
    by destruct (last (typed_emails ws)).
Qed.

Lemma well_formed_registration_item_witness :
  process_registration utc ascii_lower t_2024_06_01
    (mkRegistration alice
       (search_result
          (encode_waiver <$> [(t_2022_01_01, [("email_field", "alice@x.com")]);
                              (t_2023_12_01, [("name_field", "Alice A")])]))) =
  Ok (make_item alice
        {| dates := typed_date utc <$> [(t_2022_01_01, [("email_field", "alice@x.com")]);
                                        (t_2023_12_01, [("name_field", "Alice A")])];
           is_current := existsb (typed_current utc t_2024_06_01)
                           [(t_2022_01_01, [("email_field", "alice@x.com")]);
                            (t_2023_12_01, [("name_field", "Alice A")])];
           waiverforever_email :=
             VStr (default "" (last (typed_emails
                                       [(t_2022_01_01, [("email_field", "alice@x.com")]);
                                        (t_2023_12_01, [("name_field", "Alice A")])]))) |}).
Proof.
  apply (well_formed_registration_item utc ascii_lower t_2024_06_01 alice
           [(t_2022_01_01, [("email_field", "alice@x.com")]);
            (t_2023_12_01, [("name_field", "Alice A")])]).
  - repeat constructor.
  - reflexivity.
Defined.

(** ** The console report: further properties *)

Lemma keys_agree_lookup (d d' : dict) :
  keys_agree d d' →
  d !! "is_current" = d' !! "is_current" ∧
  d !! "eb_email" = d' !! "eb_email" ∧
  d !! "eb_first_name" = d' !! "eb_first_name" ∧
  d !! "eb_last_name" = d' !! "eb_last_name".
Proof.
  intros H. unfold keys_agree, report_keys in H.
  repeat split; apply H; set_solver.
Qed.

Lemma print_rows_agree (ds ds' : list dict) (stdout : list string) :
  Forall2 keys_agree ds ds' →
  print_rows ds stdout = print_rows ds' stdout.
Proof.
  intros HF. revert stdout.
  induction HF as [|d d' ds ds' Hd HF IH]; intros stdout; [reflexivity |].
  apply keys_agree_lookup in Hd as (Hc & He & Hf & Hl). simpl.
  unfold not_current, get, format_row, getitem_dict.
  rewrite Hc, He, Hf, Hl.
  destruct (negb _); [|apply IH].
  by destruct (_ ≫= _); [apply IH |].
Qed.

Lemma invalid_count_agree (ds ds' : list dict) :
  Forall2 keys_agree ds ds' →
  length (filter (fun item => not_current item = true) ds) =
  length (filter (fun item => not_current item = true) ds').
Proof.
  induction 1 as [|d d' ds ds' Hd HF IH]; [reflexivity |].
  apply keys_agree_lookup in Hd as (Hc & _).
  assert (Hnc : not_current d = not_current d')
    by (unfold not_current, get; by rewrite Hc).
  rewrite !filter_cons. destruct (not_current d') eqn:Hd'.
  - rewrite !decide_True by congruence. simpl. by rewrite IH.
  - by rewrite !decide_False by congruence.
Qed.

Lemma report_agree (ds ds' : list dict) :
  Forall2 keys_agree ds ds' → report_to_console ds = report_to_console ds'.
Proof.
  intros HF. unfold report_to_console.
  rewrite (invalid_count_agree _ _ HF), (Forall2_length _ _ _ HF).
  by apply print_rows_agree.
Qed.

(** X8. The report reads four keys of each item, [is_current], [eb_email],
    [eb_first_name] and [eb_last_name]: two sequences of items that
    agree on them, whatever else they hold, give the same output and the
    same exception. *)
Theorem report_reads_four_keys (ds ds' : list dict) :
  Forall2 (fun d d' => ∀ k, k ∈ report_keys → d !! k = d' !! k) ds ds' →
  report_to_console ds = report_to_console ds'.
Proof. intros HF. by apply report_agree. Qed.

Lemma report_reads_four_keys_witness :
  report_to_console [item_dave; item_carol] =
  report_to_console [<["dates" := formatted_dates [t_2022_01_01]]> item_dave;
                     <["wf_email" := VNone]> item_carol].
Proof.
  apply (report_reads_four_keys [item_dave; item_carol]
           [<["dates" := formatted_dates [t_2022_01_01]]> item_dave;
            <["wf_email" := VNone]> item_carol]).
  constructor; [|constructor; [|constructor]].
  - intros k Hk. rewrite lookup_insert_ne; [reflexivity |].
    intros <-. unfold report_keys in Hk.
    repeat (apply elem_of_cons in Hk as [Hk | Hk]; [discriminate |]).
    by apply elem_of_nil in Hk.
  - intros k Hk. rewrite lookup_insert_ne; [reflexivity |].
    intros <-. unfold report_keys in Hk.
    repeat (apply elem_of_cons in Hk as [Hk | Hk]; [discriminate |]).
    by apply elem_of_nil in Hk.
Defined.

Lemma print_rows_prefix (data : list dict) (stdout : list string) :
  ∃ rows,
    (print_rows data stdout).1 = stdout ++ rows ∧
    length rows ≤ length (filter (fun item => not_current item = true) data) ∧
    ((print_rows data stdout).2 = None →
     length rows = length (filter (fun item => not_current item = true) data)).
Proof.
  revert stdout. induction data as [|item data IH]; intros stdout; simpl.
  - exists []. by rewrite app_nil_r.
  - rewrite filter_cons. destruct (not_current item) eqn:Hnc.
    + rewrite decide_True by reflexivity. simpl.
      destruct (format_row item) as [line|x].
      * destruct (IH (stdout ++ [line])) as (rows & Hout & Hle & Heq).
        exists (line :: rows). rewrite Hout, <- app_assoc. simpl.
        split; [reflexivity |]. split; [simpl; lia |].
        intros H. simpl. by rewrite (Heq H).
      * exists []. simpl. rewrite app_nil_r. split; [reflexivity |].
        split; [simpl; lia | discriminate].
    + rewrite decide_False by discriminate. apply IH.
Qed.

(** X9. On any sequence of items the report starts with the count line,
    computed before any row is formatted, and the two heading lines; the
    rows that follow are never more than the count, and as many as the
    count when no exception interrupts the table. *)
Theorem report_heading_and_row_count (data : list dict) :
  ∃ rows,
    (report_to_console data).1 =
      [ count_line (length (filter (fun item => not_current item = true) data))
                   (length data);
        "Invalid or missing waivers:";
        table_header ] ++ rows ∧
    length rows ≤ length (filter (fun item => not_current item = true) data) ∧
    ((report_to_console data).2 = None →
     length rows = length (filter (fun item => not_current item = true) data)).
Proof. unfold report_to_console. apply print_rows_prefix. Qed.

Lemma print_rows_app (a b : list dict) (stdout : list string) :
  print_rows (a ++ b) stdout =
  match print_rows a stdout with
  | (out, None) => print_rows b out
  | (out, Some x) => (out, Some x)
  end.
Proof.
  revert stdout. induction a as [|item a IH]; intros stdout; simpl.
  - reflexivity.
  - destruct (not_current item); [|apply IH].
    destruct (format_row item); [apply IH | reflexivity].
Qed.

(** X10. An item without an [is_current] key, or with [None] under it, is
    counted and listed as invalid: between reconciled items it adds one
    to the count and its row to the table, at its place. *)
Theorem missing_verdict_is_reported (pre post : list dict)
    (rows_pre rows_post : list (string * string * string * bool))
    (item : dict) (e f l : string) :
  Forall2 (fun item r => row_of item = Some r) pre rows_pre →
  Forall2 (fun item r => row_of item = Some r) post rows_post →
  name_row item = Some (e, f, l) →
  item !! "is_current" = None ∨ item !! "is_current" = Some VNone →
  report_to_console (pre ++ item :: post) =
    ([ count_line
         (length (filter (fun r => row_invalid r = true) rows_pre) + 1 +
          length (filter (fun r => row_invalid r = true) rows_post))
         (length rows_pre + 1 + length rows_post);
       "Invalid or missing waivers:";
       table_header ]
     ++ (table_row <$> filter (fun r => row_invalid r = true) rows_pre)
     ++ [table_row (e, f, l, false)]
     ++ (table_row <$> filter (fun r => row_invalid r = true) rows_post),
     None).
Proof.
  intros Hpre Hpost Hname Hnone.
  assert (Hnc : not_current item = true).
  { unfold not_current, get. by destruct Hnone as [-> | ->]. }
  assert (Hrow : format_row item = Ok (table_row (e, f, l, false))).
  { unfold name_row in Hname. unfold format_row, getitem_dict.
    repeat case_match; try discriminate. by simplify_eq. }
  unfold report_to_console.
  rewrite print_rows_app, (print_rows_ok _ _ _ Hpre). simpl.
  rewrite Hnc, Hrow, (print_rows_ok _ _ _ Hpost).
  rewrite filter_app, filter_cons, decide_True by exact Hnc.
  rewrite !length_app. simpl.
  rewrite (invalid_count_rows _ _ Hpre), (invalid_count_rows _ _ Hpost).
  rewrite (Forall2_length _ _ _ Hpre), (Forall2_length _ _ _ Hpost).
  rewrite <- !app_assoc. simpl.
  do 3 f_equal; lia.
Qed.

Lemma missing_verdict_is_reported_witness :
  report_to_console ([item_alice; item_dave] ++ item_no_verdict :: [item_carol]) =
    ([ count_line (1 + 1 + 1) (2 + 1 + 1);
       "Invalid or missing waivers:";
       table_header ]
     ++ [table_row ("dave@x.com", "Dave", "D", false)]
     ++ [table_row ("erin@x.com", "Erin", "E", false)]
     ++ [table_row ("carol@x.com", "Carol", "C", false)],
     None).
Proof.
  apply (missing_verdict_is_reported [item_alice; item_dave] [item_carol]
           [("alice@x.com", "Alice", "A", true); ("dave@x.com", "Dave", "D", false)]
           [("carol@x.com", "Carol", "C", false)]
           item_no_verdict "erin@x.com" "Erin" "E").
  - repeat constructor.
  - repeat constructor.
  - reflexivity.
  - left. reflexivity.
Defined.

Lemma len_app (s1 s2 : string) : len (s1 +:+ s2) = len s1 + len s2.
Proof.
  induction s1 as [|c s1 IH]; [reflexivity |].
  change (len (String c (s1 +:+ s2)) = len (String c s1) + len s2).
  simpl. rewrite IH. lia.
Qed.

Lemma string_app_assoc (s1 s2 s3 : string) :
  (s1 +:+ s2) +:+ s3 = s1 +:+ (s2 +:+ s3).
Proof.
  induction s1 as [|c s1 IH]; [reflexivity |].
  change (String c ((s1 +:+ s2) +:+ s3) = String c (s1 +:+ (s2 +:+ s3))).
  by rewrite IH.
Qed.

Lemma len_spaces (n : nat) : len (spaces n) = n.
Proof.
  induction n as [|n IH]; [reflexivity |].
  change (len (" " +:+ spaces n) = S n). rewrite len_app, IH. reflexivity.
Qed.

Lemma ljust_len (s : string) (w : nat) : len (ljust s w) = Nat.max (len s) w.
Proof. unfold ljust. rewrite len_app, len_spaces. lia. Qed.

(** X11. A table row is never truncated: it starts with the whole email,
    and its width is 62 characters when the email fits in 30 characters
    and each name in 15, and more by the excess otherwise; characters
    are code points, as [len] and the padding of line 142 count them. *)
Theorem table_row_width (e f l : string) (c : bool) :
  (∃ rest, table_row (e, f, l, c) = e +:+ rest) ∧
  len (table_row (e, f, l, c)) =
    Nat.max (len e) 30 + Nat.max (len f) 15 + Nat.max (len l) 15 + 2.
Proof.
  unfold table_row. simpl. split.
  - unfold ljust at 1. eexists. rewrite !string_app_assoc. reflexivity.
  - rewrite !len_app, !ljust_len. simpl. lia.
Qed.

Example table_row_accented :
  table_row ("josé@x.com", "José", "Núñez", false) =
    "josé@x.com                     José            Núñez          " ∧
  len (table_row ("josé@x.com", "José", "Núñez", false)) = 62.
Proof. split; reflexivity. Qed.

(** ** The date-formatting pass: further properties *)

Lemma formatted_from_done (d d' : dict) :
  formatted_from d d' →
  pass_done d' ∧
  (truthy (get d "dates") = true →
   ∃ ds, ds ≠ [] ∧ d' !! "dates" = Some (formatted_dates ds)).
Proof.
  unfold formatted_from, pass_done.
  destruct (truthy (get d "dates")) eqn:Ht.
  - intros (ds & Hds & ->).
    assert (Hne : ds ≠ []).
    { intros ->. unfold get in Ht. by rewrite Hds in Ht. }
    assert (Hnew : ∃ ds0, ds0 ≠ [] ∧
              <["dates" := formatted_dates ds]> d !! "dates" =
                Some (formatted_dates ds0)).
    { exists ds. split; [exact Hne | by rewrite lookup_insert_eq]. }
    split; [by right | by intros _].
  - intros ->. split; [by left | discriminate].
Qed.

Lemma formatted_dates_raise (ds : list datetime) :
  ds ≠ [] →
  (elems ← iter (formatted_dates ds); map_result strftime_value elems) =
  Raise AttributeError.
Proof. by destruct ds. Qed.

(** A pass over dicts that have all been through the pass already: the
    falsy ones are skipped, the first formatted one raises. *)
Lemma format_items_again_raises (items : list loc) (h : store) :
  (∀ l, l ∈ items → ∃ d, h l = ODict d ∧ pass_done d) →
  (∃ l d ds, l ∈ items ∧ h l = ODict d ∧ ds ≠ [] ∧
             d !! "dates" = Some (formatted_dates ds)) →
  format_items items h = Raise AttributeError.
Proof.
  induction items as [|item rest IH]; intros Hall (l & d & ds & Hl & Hd & Hne & Hds).
  - by apply elem_of_nil in Hl.
  - simpl. destruct (Hall item) as (d0 & Hd0 & Hdone); [by left |].
    rewrite Hd0. destruct Hdone as [Hf | (ds0 & Hne0 & Hds0)].
    + rewrite Hf. apply IH.
      * intros l' Hl'. apply Hall. by right.
      * apply elem_of_cons in Hl as [-> | Hl]; [|by eauto 10].
        rewrite Hd in Hd0. injection Hd0 as <-.
        unfold get in Hf. rewrite Hds in Hf. by destruct ds.
    + unfold get, getitem_dict. rewrite Hds0. simpl.
      destruct ds0 as [|x ds0]; [done |]. reflexivity.
Qed.

(** X12. The pass cannot be run twice: once it has formatted the dates of
    some item, a second pass over the same list raises [AttributeError],
    the strings it left having no [strftime]. *)
Theorem second_pass_raises (data : loc) (h : store) (items : list loc)
    (r : loc) (h' : store) (l : loc) (d : dict) :
  h data = OList items →
  prepare_data_for_reporting data h = Ok (r, h') →
  l ∈ items →
  h l = ODict d →
  truthy (get d "dates") = true →
  prepare_data_for_reporting r h' = Raise AttributeError.
Proof.
  intros Hdata Hrun Hl Hd Ht. unfold prepare_data_for_reporting in Hrun.
  rewrite Hdata in Hrun.
  destruct (format_items items h) as [h1|] eqn:Hloop; simpl in Hrun; [|discriminate].
  injection Hrun as <- <-.
  apply format_items_ok in Hloop as (Hout & Hin).
  assert (Hself : data ∉ items).
  { intros Hmem. destruct (Hin _ Hmem) as (d0 & _ & Hd0 & _). congruence. }
  unfold prepare_data_for_reporting. rewrite (Hout _ Hself), Hdata.
  rewrite format_items_again_raises; [reflexivity | |].
  - intros l' Hl'. destruct (Hin _ Hl') as (d1 & d2 & _ & Hd2 & Hrel).
    exists d2. split; [exact Hd2 | by apply (formatted_from_done d1)].
  - destruct (Hin _ Hl) as (d1 & d2 & Hd1 & Hd2 & Hrel).
    rewrite Hd in Hd1. injection Hd1 as <-.
    destruct (formatted_from_done _ _ Hrel) as (_ & Hfmt).
    destruct (Hfmt Ht) as (ds & Hne & Hds). exists l, d2, ds. eauto.
Qed.

Lemma second_pass_raises_witness :
  prepare_data_for_reporting 0 sample_store_formatted = Raise AttributeError.
Proof.
  apply (second_pass_raises 0 sample_store [1; 2; 3] 0 sample_store_formatted
           1 item_alice).
  - reflexivity.
  - reflexivity.
  - by left.
  - reflexivity.
  - reflexivity.
Defined.

Lemma format_items_once (items : list loc) (h h' : store) :
  format_items items h = Ok h' →
  ∀ i j l d,
    items !! i = Some l → items !! j = Some l →
    h l = ODict d → truthy (get d "dates") = true → i = j.
Proof.
  revert h. induction items as [|item rest IH]; intros h Hrun i j l d Hi Hj Hd Ht.
  - discriminate.
  - simpl in Hrun. destruct (h item) as [d0|] eqn:Hitem; [|discriminate].
    destruct (truthy (get d0 "dates")) eqn:Ht0.
    + unfold getitem_dict in Hrun.
      destruct (d0 !! "dates") as [v|] eqn:Hv; [|discriminate]. simpl in Hrun.
      assert (Hget : get d0 "dates" = v) by (unfold get; by rewrite Hv).
      destruct (iter v) as [elems|] eqn:Hiter; simpl in Hrun; [|discriminate].
      destruct (map_result strftime_value elems) as [formatted|] eqn:Hmap;
        simpl in Hrun; [|discriminate].
      assert (Hv' : truthy v = true) by (by rewrite <- Hget).
      destruct (formatted_truthy _ _ _ Hv' Hiter Hmap) as (ds & -> & Hfmt).
      rewrite Hfmt in Hrun.
      assert (Hone : formatted_from d0 (<["dates" := formatted_dates ds]> d0)).
      { unfold formatted_from. rewrite Ht0. by exists ds. }
      assert (Hfresh : item ∉ rest).
      { intros Hmem. apply format_items_ok in Hrun as (_ & Hin).
        destruct (Hin _ Hmem) as (d1 & d2 & Hd1 & _ & Hagain).
        rewrite fn_lookup_insert in Hd1. injection Hd1 as <-.
        by eapply (formatted_from_twice d0). }
      destruct i as [|i], j as [|j]; simpl in Hi, Hj.
      * reflexivity.
      * injection Hi as <-. destruct Hfresh. by eapply list_elem_of_lookup_2.
      * injection Hj as <-. destruct Hfresh. by eapply list_elem_of_lookup_2.
      * f_equal. eapply (IH _ Hrun i j l d); try done.
        rewrite fn_lookup_insert_ne; [exact Hd |].
        intros ->. destruct Hfresh. by eapply list_elem_of_lookup_2.
    + destruct i as [|i], j as [|j]; simpl in Hi, Hj.
      * reflexivity.
      * injection Hi as <-. congruence.
      * injection Hj as <-. congruence.
      * f_equal. by eapply (IH _ Hrun i j l d).
Qed.

(** X13. The pass does not get through a list that holds the same dict,
    with a non-empty [dates], at two positions: the dict is formatted at
    its first position and the pass raises at the second, if not before. *)
Theorem aliased_item_stops_pass (data : loc) (h : store) (items : list loc)
    (i j : nat) (l : loc) (d : dict) :
  h data = OList items →
  items !! i = Some l →
  items !! j = Some l →
  i ≠ j →
  h l = ODict d →
  truthy (get d "dates") = true →
  ∃ x, prepare_data_for_reporting data h = Raise x.
Proof.
  intros Hdata Hi Hj Hne Hd Ht. unfold prepare_data_for_reporting.
  rewrite Hdata.
  destruct (format_items items h) as [h1|x] eqn:Hloop; simpl; [|by exists x].
  destruct Hne. by apply (format_items_once _ _ _ Hloop i j l d).
Qed.

Lemma aliased_item_stops_pass_witness :
  ∃ x, prepare_data_for_reporting 0 aliased_store = Raise x.
Proof.
  apply (aliased_item_stops_pass 0 aliased_store [1; 2; 1] 0 2 1 item_alice).
  - reflexivity.
  - reflexivity.
  - reflexivity.
  - discriminate.
  - reflexivity.
  - reflexivity.
Defined.

Lemma read_items_formatted (items : list loc) (h h' : store) :
  (∀ l, l ∈ items →
     ∃ d d', h l = ODict d ∧ h' l = ODict d' ∧ formatted_from d d') →
  ∃ ds ds',
    read_items h items = Some ds ∧
    read_items h' items = Some ds' ∧
    Forall2 formatted_from ds ds'.
Proof.
  induction items as [|l rest IH]; intros Hall; simpl.
  - exists [], []. by repeat split.
  - destruct (Hall l) as (d & d' & -> & -> & Hrel); [by left |].
    destruct IH as (ds & ds' & -> & -> & HF).
    { intros l' Hl'. apply Hall. by right. }
    exists (d :: ds), (d' :: ds'). simpl. repeat split. by constructor.
Qed.

Lemma formatted_from_keys (d d' : dict) : formatted_from d d' → keys_agree d' d.
Proof.
  intros Hrel k Hk. apply (formatted_from_frame _ _ _ Hrel).
  intros ->. unfold report_keys in Hk.
  repeat (apply elem_of_cons in Hk as [Hk | Hk]; [discriminate |]).
  by apply elem_of_nil in Hk.
Qed.

(** X14. Formatting the dates does not change the console report:
    [report_to_console] gives on the items the pass leaves what it gives
    on the items the pass was handed. *)
Theorem formatting_keeps_report (data : loc) (h : store) (items : list loc)
    (r : loc) (h' : store) :
  h data = OList items →
  prepare_data_for_reporting data h = Ok (r, h') →
  ∃ ds ds',
    read_items h items = Some ds ∧
    read_items h' items = Some ds' ∧
    report_to_console ds' = report_to_console ds.
Proof.
  intros Hdata Hrun. unfold prepare_data_for_reporting in Hrun.
  rewrite Hdata in Hrun.
  destruct (format_items items h) as [h1|] eqn:Hloop; simpl in Hrun; [|discriminate].
  injection Hrun as <- <-.
  apply format_items_ok in Hloop as (_ & Hin).
  destruct (read_items_formatted _ _ _ Hin) as (ds & ds' & Hds & Hds' & HF).
  exists ds, ds'. split; [exact Hds |]. split; [exact Hds' |].
  apply report_agree. apply Forall2_flip.
  eapply Forall2_impl; [exact HF |]. intros d d' Hrel. by apply formatted_from_keys.
Qed.

Lemma formatting_keeps_report_witness :
  ∃ ds ds',
    read_items sample_store [1; 2; 3] = Some ds ∧
    read_items sample_store_formatted [1; 2; 3] = Some ds' ∧
    report_to_console ds' = report_to_console ds.
Proof.
  apply (formatting_keeps_report 0 sample_store [1; 2; 3] 0 sample_store_formatted).
  - reflexivity.
  - reflexivity.
Defined.

(** ** The adapters *)

Section AdapterFacts.
Variable network : list request → request → outcome response.

Lemma io_bind_unfold {A B} (m : io A) (f : A → io B) (log : list request) :
  (m ≫= f) log =
  match m log with
  | (Done a, log') => f a log'
  | (Failed e, log') => (Failed e, log')
  end.
Proof. reflexivity. Qed.

(** Send, check the status, decode: one request in the log, and [fetch]
    for an outcome. *)
Lemma send_check_decode (rq : request) (log : list request) :
  (response ← send network rq;
   _ ← raise_for_status response;
   lift (body response)) log =
  (fetch network log rq, log ++ [rq]).
Proof.
  unfold fetch. rewrite io_bind_unfold. unfold send.
  destruct (network log rq) as [resp|f]; [|reflexivity].
  rewrite io_bind_unfold. unfold raise_for_status.
  destruct ((400 <=? status_code resp) && (status_code resp <? 600))%Z;
    [reflexivity |].
  unfold lift. by destruct (body resp).
Qed.

Lemma eventbrite_api_request_fetch (key u : string) (log : list request) :
  eventbrite_api_request key network u log =
  (fetch network log (eventbrite_get key u), log ++ [eventbrite_get key u]).
Proof. apply send_check_decode. Qed.

Lemma search_loop_step (key u : string) (reg : Registrant) (rest : list Registrant)
    (data : list registration) (log : list request) :
  search_loop key network u (reg :: rest) data log =
  match fetch network log (search_request key u reg) with
  | Done json_data =>
      search_loop key network u rest (data ++ [mkRegistration reg json_data])
        (log ++ [search_request key u reg])
  | Failed f => (Failed f, log ++ [search_request key u reg])
  end.
Proof.
  simpl. unfold fetch. rewrite io_bind_unfold. unfold send.
  destruct (network log (search_request key u reg)) as [resp|f]; [|reflexivity].
  rewrite io_bind_unfold. unfold raise_for_status.
  destruct ((400 <=? status_code resp) && (status_code resp <? 600))%Z;
    [reflexivity |].
  rewrite io_bind_unfold. unfold lift. by destruct (body resp).
Qed.

Lemma search_loop_spec (key u : string) (regs : list Registrant)
    (data : list registration) (log : list request) :
  match search_loop key network u regs data log with
  | (Done out, log') =>
      log' = log ++ (search_request key u <$> regs) ∧
      ∃ entries,
        out = data ++ entries ∧
        eventbrite_data <$> entries = regs ∧
        ∀ i entry,
          entries !! i = Some entry →
          fetch network (log ++ (search_request key u <$> take i regs))
            (search_request key u (eventbrite_data entry)) =
          Done (waiverforever_data entry)
  | (Failed f, log') =>
      ∃ i reg,
        regs !! i = Some reg ∧
        log' = log ++ (search_request key u <$> take (S i) regs) ∧
        fetch network (log ++ (search_request key u <$> take i regs))
          (search_request key u reg) = Failed f
  end.
Proof.
  revert data log. induction regs as [|reg rest IH]; intros data log.
  - simpl. split; [by rewrite app_nil_r |].
    exists []. rewrite app_nil_r. repeat split. intros i entry Hi. discriminate.
  - rewrite search_loop_step.
    destruct (fetch network log (search_request key u reg)) as [json_data|f] eqn:Hf.
    + specialize (IH (data ++ [mkRegistration reg json_data])
                     (log ++ [search_request key u reg])).
      destruct (search_loop key network u rest _ _) as [[out|f] log'].
      * destruct IH as (Hlog & entries & -> & Hregs & Hfetch).
        split; [by rewrite Hlog, <- app_assoc |].
        exists (mkRegistration reg json_data :: entries).
        split; [by rewrite <- app_assoc |]. split; [by rewrite fmap_cons, Hregs |].
        intros [|i] entry Hi; simpl in *.
        -- injection Hi as <-. simpl. by rewrite app_nil_r.
        -- specialize (Hfetch i entry Hi). by rewrite <- app_assoc in Hfetch.
      * destruct IH as (i & reg' & Hreg' & Hlog & Hfail).
        exists (S i), reg'. split; [exact Hreg' |].
        split; [by rewrite Hlog, <- app_assoc |].
        simpl. by rewrite <- app_assoc in Hfail.
    + exists 0, reg. simpl. split; [reflexivity |]. split; [reflexivity |].
      by rewrite app_nil_r.
Qed.

End AdapterFacts.

(** X15. When the waiver lookup returns, it has sent one search request
    per registrant, in the order of the registrants and with the
    registrant's email for search term, and returns one entry per
    registrant, in order, pairing the registrant with the decoded body of
    the response to its own request. *)
Theorem lookup_pairs_each_registrant
    (network : list request → request → outcome response) (key u : string)
    (regs : list Registrant) (log log' : list request) (data : list registration) :
  waiverforever_api_request key network u regs log = (Done data, log') →
  log' = log ++ (search_request key u <$> regs) ∧
  eventbrite_data <$> data = regs ∧
  ∀ i entry,
    data !! i = Some entry →
    fetch network (log ++ (search_request key u <$> take i regs))
      (search_request key u (eventbrite_data entry)) =
    Done (waiverforever_data entry).
Proof.
  intros Hrun. unfold waiverforever_api_request in Hrun.
  pose proof (search_loop_spec network key u regs [] log) as Hspec.
  rewrite Hrun in Hspec. destruct Hspec as (Hlog & entries & -> & Hregs & Hfetch).
  by repeat split.
Qed.

Lemma lookup_pairs_each_registrant_witness :
  [] ++ (search_request "k" WAIVERFOREVER_SEARCH_ENDPOINT <$> [alice; carol]) =
    [] ++ (search_request "k" WAIVERFOREVER_SEARCH_ENDPOINT <$> [alice; carol]) ∧
  eventbrite_data <$> [reg_alice; reg_carol] = [alice; carol] ∧
  ∀ i entry,
    [reg_alice; reg_carol] !! i = Some entry →
    fetch sample_network
      ([] ++ (search_request "k" WAIVERFOREVER_SEARCH_ENDPOINT <$> take i [alice; carol]))
      (search_request "k" WAIVERFOREVER_SEARCH_ENDPOINT (eventbrite_data entry)) =
    Done (waiverforever_data entry).
Proof.
  apply (lookup_pairs_each_registrant sample_network "k"
           WAIVERFOREVER_SEARCH_ENDPOINT [alice; carol] []
           ([] ++ (search_request "k" WAIVERFOREVER_SEARCH_ENDPOINT <$> [alice; carol]))
           [reg_alice; reg_carol]).
  reflexivity.
Defined.

(** X16. When the waiver lookup fails, it fails with what the request of
    one registrant came to (no response, an error status, or a body that
    does not decode); the requests sent are those of the registrants up
    to that one, and none after it. *)
Theorem lookup_stops_at_first_failure
    (network : list request → request → outcome response) (key u : string)
    (regs : list Registrant) (log log' : list request) (f : failure) :
  waiverforever_api_request key network u regs log = (Failed f, log') →
  ∃ i reg,
    regs !! i = Some reg ∧
    log' = log ++ (search_request key u <$> take (S i) regs) ∧
    fetch network (log ++ (search_request key u <$> take i regs))
      (search_request key u reg) = Failed f.
Proof.
  intros Hrun. unfold waiverforever_api_request in Hrun.
  pose proof (search_loop_spec network key u regs [] log) as Hspec.
  by rewrite Hrun in Hspec.
Qed.

Lemma lookup_stops_at_first_failure_witness :
  ∃ i reg,
    [alice; dave; carol] !! i = Some reg ∧
    [] ++ (search_request "k" WAIVERFOREVER_SEARCH_ENDPOINT <$> [alice; dave]) =
      [] ++ (search_request "k" WAIVERFOREVER_SEARCH_ENDPOINT <$>
               take (S i) [alice; dave; carol]) ∧
    fetch sample_network
      ([] ++ (search_request "k" WAIVERFOREVER_SEARCH_ENDPOINT <$>
                take i [alice; dave; carol]))
      (search_request "k" WAIVERFOREVER_SEARCH_ENDPOINT reg) =
    Failed (HTTPError 429).
Proof.
  apply (lookup_stops_at_first_failure sample_network "k"
           WAIVERFOREVER_SEARCH_ENDPOINT [alice; dave; carol] []
           ([] ++ (search_request "k" WAIVERFOREVER_SEARCH_ENDPOINT <$> [alice; dave]))
           (HTTPError 429)).
  reflexivity.
Defined.

(** X17. Lookup followed by reconciliation: when both complete, the
    items are one per registrant of the ticketing list, in its order,
    duplicates included, each with that registrant's email and names. *)
Theorem lookup_then_reconcile_rows
    (network : list request → request → outcome response) (key u : string)
    (local_datetime : Z → result datetime)
    (lower : string → string) (end_date : datetime)
    (regs : list Registrant) (log log' : list request)
    (data : list registration) (out : list dict) :
  waiverforever_api_request key network u regs log = (Done data, log') →
  process_waiver_data local_datetime lower data end_date = Ok out →
  Forall2 (fun reg item =>
             ∃ c, row_of item = Some (email reg, first_name reg, last_name reg, c))
          regs out.
Proof.
  intros Hlookup Hrun. unfold waiverforever_api_request in Hlookup.
  pose proof (search_loop_spec network key u regs [] log) as Hspec.
  rewrite Hlookup in Hspec. destruct Hspec as (_ & entries & -> & <- & _).
  apply reconciled_rows in Hrun. simpl in Hrun.
  by apply Forall2_fmap_l.
Qed.

Lemma lookup_then_reconcile_rows_witness :
  Forall2 (fun reg item =>
             ∃ c, row_of item = Some (email reg, first_name reg, last_name reg, c))
          [alice; carol; alice] [item_alice; item_carol; item_alice].
Proof.
  apply (lookup_then_reconcile_rows sample_network "k" WAIVERFOREVER_SEARCH_ENDPOINT
           utc ascii_lower t_2024_06_01 [alice; carol; alice] []
           ([] ++ (search_request "k" WAIVERFOREVER_SEARCH_ENDPOINT <$>
                     [alice; carol; alice]))
           [reg_alice; reg_carol; reg_alice] [item_alice; item_carol; item_alice]).
  - reflexivity.
  - vm_compute. reflexivity.
Defined.

(** *** Events and the selection *)

Lemma future_of_spec (strptime : string → string → result datetime)
    (time_now : datetime) (items f_events : list value) :
  future_of strptime time_now items = Ok f_events →
  Forall (fun item => ∃ t, event_end strptime item = Ok t) items ∧
  f_events = filter (fun item => ends_after strptime time_now item = true) items.
Proof.
  revert f_events. induction items as [|item rest IH]; intros f_events; simpl.
  - intros [= <-]. split; [constructor | reflexivity].
  - destruct (event_end strptime item) as [t|] eqn:Ht; simpl; [|discriminate].
    destruct (future_of strptime time_now rest) as [evs|]; simpl; [|discriminate].
    intros [= <-]. destruct (IH evs eq_refl) as (HF & ->).
    split; [constructor; eauto |].
    assert (Hea : ends_after strptime time_now item = (t >? time_now)%Z)
      by (unfold ends_after; by rewrite Ht).
    rewrite filter_cons. destruct (t >? time_now)%Z.
    + by rewrite decide_True by exact Hea.
    + rewrite decide_False; [reflexivity | by rewrite Hea].
Qed.

(** X18. When [get_future_events] returns, it has sent one request, for
    the organisation's events; every event of the answer had an end that
    parses, also those that are over; and the events returned are those
    whose end is strictly after the clock's reading, in the order of the
    answer. *)
Theorem future_events_are_the_later_ones
    (key org : string) (network : list request → request → outcome response)
    (strptime : string → string → result datetime) (time_now : datetime)
    (log log' : list request) (f_events : list value) :
  get_future_events key org network strptime time_now log = (Done f_events, log') →
  log' = log ++ [eventbrite_get key (events_url org)] ∧
  ∃ data items,
    fetch network log (eventbrite_get key (events_url org)) = Done data ∧
    getitem data "events" ≫= iter = Ok items ∧
    Forall (fun item => ∃ t, event_end strptime item = Ok t) items ∧
    f_events = filter (fun item => ends_after strptime time_now item = true) items.
Proof.
  unfold get_future_events. rewrite io_bind_unfold, eventbrite_api_request_fetch.
  destruct (fetch network log _) as [data|f] eqn:Hfetch; [|discriminate].
  unfold lift.
  destruct (getitem data "events") as [events|] eqn:He; simpl; [|discriminate].
  destruct (iter events) as [items|] eqn:Hi; simpl; [|discriminate].
  destruct (future_of strptime time_now items) as [evs|] eqn:Hf; [|discriminate].
  intros [= <- <-]. split; [reflexivity |].
  exists data, items. rewrite He. simpl. rewrite Hi.
  destruct (future_of_spec _ _ _ _ Hf) as (HF & ->). by repeat split.
Qed.

Lemma future_events_are_the_later_ones_witness :
  [] ++ [eventbrite_get "k" (events_url "org")] =
    [] ++ [eventbrite_get "k" (events_url "org")] ∧
  ∃ data items,
    fetch sample_network [] (eventbrite_get "k" (events_url "org")) = Done data ∧
    getitem data "events" ≫= iter = Ok items ∧
    Forall (fun item => ∃ t, event_end sample_strptime item = Ok t) items ∧
    [ev_summer] =
      filter (fun item => ends_after sample_strptime t_2024_06_01 item = true) items.
Proof.
  apply (future_events_are_the_later_ones "k" "org" sample_network sample_strptime
           t_2024_06_01 [] ([] ++ [eventbrite_get "k" (events_url "org")])
           [ev_summer]).
  reflexivity.
Defined.

Lemma print_menu_names (f_events : list value) (names : list string)
    (index : nat) (stdout : list string) :
  Forall2 (fun item name => event_name item = Ok (VStr name)) f_events names →
  print_menu f_events index stdout =
    (stdout ++ imap (fun i => menu_line (index + i)) names, None).
Proof.
  intros HF. revert index stdout.
  induction HF as [|item name f_events names Hname HF IH]; intros index stdout; simpl.
  - by rewrite app_nil_r.
  - rewrite Hname, IH, <- app_assoc. simpl. rewrite Nat.add_0_r.
    do 3 f_equal. apply imap_ext. intros i x _. simpl. f_equal. lia.
Qed.

Lemma menu_numbers_events_from_one_aux (int : string → result Z)
    (f_events : list value) (names : list string) (sel : string) :
  Forall2 (fun item name => event_name item = Ok (VStr name)) f_events names →
  get_event_selection int f_events sel =
    (imap menu_line names ++ [select_prompt], n ← int sel; Ok (n - 1)%Z).
Proof.
  intros HF. unfold get_event_selection.
  by rewrite (print_menu_names _ _ _ _ HF).
Qed.

(** X19. For events that carry a name, the selection writes one menu
    line per event, numbered from 1 in the order of the list, then the
    prompt, and returns the number typed less one. *)
Theorem menu_numbers_events_from_one (int : string → result Z)
    (f_events : list value) (names : list string) (sel : string) :
  Forall2 (fun item name => event_name item = Ok (VStr name)) f_events names →
  get_event_selection int f_events sel =
    (imap menu_line names ++ [select_prompt], n ← int sel; Ok (n - 1)%Z).
Proof.
  intros HF. by apply menu_numbers_events_from_one_aux.
Qed.

Lemma menu_numbers_events_from_one_witness :
  get_event_selection sample_int [ev_spring; ev_summer] "2" =
    (["1 . Spring Ride"; "2 . Summer Ride"; select_prompt], Ok 1%Z).
Proof.
  apply (menu_numbers_events_from_one sample_int [ev_spring; ev_summer]
           ["Spring Ride"; "Summer Ride"] "2").
  repeat constructor.
Defined.

Lemma list_getitem_lookup {A} (l : list A) (i : nat) (x : A) :
  l !! i = Some x → list_getitem l (Z.of_nat i) = Done x.
Proof.
  intros Hi. pose proof (lookup_lt_Some _ _ _ Hi) as Hlt.
  unfold list_getitem.
  destruct (Z.ltb_spec (Z.of_nat i) 0); [lia |].
  rewrite Nat2Z.id, Hi.
  destruct (Z.leb_spec 0 (Z.of_nat i)); [|lia].
  destruct (Z.ltb_spec (Z.of_nat i) (Z.of_nat (length l))); [reflexivity | lia].
Qed.

(** X20. The number typed selects the event shown under that number:
    for [k] between 1 and the number of events, the index returned makes
    [future_events[selected_event]] the event whose name is on menu line
    [k]. *)
Theorem selection_matches_menu (int : string → result Z)
    (f_events : list value) (names : list string) (sel : string) (k : nat) :
  Forall2 (fun item name => event_name item = Ok (VStr name)) f_events names →
  int sel = Ok (Z.of_nat k) →
  1 ≤ k ≤ length f_events →
  ∃ item name,
    (get_event_selection int f_events sel).2 = Ok (Z.of_nat k - 1)%Z ∧
    list_getitem f_events (Z.of_nat k - 1) = Done item ∧
    event_name item = Ok (VStr name) ∧
    (get_event_selection int f_events sel).1 !! (k - 1) =
      Some (str (Z.of_nat k) +:+ " " +:+ ". " +:+ name).
Proof.
  intros HF Hint [Hlo Hhi].
  destruct (lookup_lt_is_Some_2 f_events (k - 1)) as (item & Hitem); [lia |].
  destruct (Forall2_lookup_l _ _ _ _ _ HF Hitem) as (name & Hname & Hev).
  exists item, name.
  rewrite (menu_numbers_events_from_one_aux int f_events names sel HF), Hint.
  simpl. split; [reflexivity |]. split; [|split; [exact Hev |]].
  - replace (Z.of_nat k - 1)%Z with (Z.of_nat (k - 1)) by lia.
    by apply list_getitem_lookup.
  - rewrite lookup_app_l by (rewrite length_imap;
      apply (lookup_lt_Some _ _ _ Hname)).
    rewrite list_lookup_imap, Hname. simpl. unfold menu_line.
    by replace (Z.of_nat (k - 1) + 1)%Z with (Z.of_nat k) by lia.
Qed.

Lemma selection_matches_menu_witness :
  ∃ item name,
    (get_event_selection sample_int [ev_spring; ev_summer] "2").2 =
      Ok (Z.of_nat 2 - 1)%Z ∧
    list_getitem [ev_spring; ev_summer] (Z.of_nat 2 - 1) = Done item ∧
    event_name item = Ok (VStr name) ∧
    (get_event_selection sample_int [ev_spring; ev_summer] "2").1 !! (2 - 1) =
      Some (str (Z.of_nat 2) +:+ " " +:+ ". " +:+ name).
Proof.
  apply (selection_matches_menu sample_int [ev_spring; ev_summer]
           ["Spring Ride"; "Summer Ride"] "2" 2).
  - repeat constructor.
  - reflexivity.
  - simpl. lia.
Defined.

(** X21. Typing 0 is not refused: the function returns -1, and
    [future_events[-1]] is the last event of the menu. *)
Theorem typing_zero_selects_last (int : string → result Z)
    (f_events : list value) (names : list string) (sel : string) (item : value) :
  Forall2 (fun item name => event_name item = Ok (VStr name)) f_events names →
  int sel = Ok 0%Z →
  last f_events = Some item →
  (get_event_selection int f_events sel).2 = Ok (-1)%Z ∧
  list_getitem f_events (-1) = Done item.
Proof.
  intros HF Hint Hlast.
  rewrite (menu_numbers_events_from_one_aux int f_events names sel HF), Hint.
  split; [reflexivity |].
  rewrite last_lookup in Hlast.
  pose proof (lookup_lt_Some _ _ _ Hlast) as Hlt.
  unfold list_getitem. simpl.
  replace (-1 + Z.of_nat (length f_events))%Z
    with (Z.of_nat (Nat.pred (length f_events))) by lia.
  rewrite Nat2Z.id, Hlast.
  destruct (Z.leb_spec 0 (Z.of_nat (Nat.pred (length f_events)))); [|lia].
  destruct (Z.ltb_spec (Z.of_nat (Nat.pred (length f_events)))
              (Z.of_nat (length f_events))); [reflexivity | lia].
Qed.

Lemma typing_zero_selects_last_witness :
  (get_event_selection sample_int [ev_spring; ev_summer] "0").2 = Ok (-1)%Z ∧
  list_getitem [ev_spring; ev_summer] (-1) = Done ev_summer.
Proof.
  apply (typing_zero_selects_last sample_int [ev_spring; ev_summer]
           ["Spring Ride"; "Summer Ride"] "0" ev_summer).
  - repeat constructor.
  - reflexivity.
  - reflexivity.
Defined.

(** X22. A number beyond the menu is returned like any other; it is the
    indexing of [future_events] that raises [IndexError]. *)
Theorem typing_beyond_menu_raises (int : string → result Z)
    (f_events : list value) (names : list string) (sel : string) (k : Z) :
  Forall2 (fun item name => event_name item = Ok (VStr name)) f_events names →
  int sel = Ok k →
  (k > Z.of_nat (length f_events))%Z →
  (get_event_selection int f_events sel).2 = Ok (k - 1)%Z ∧
  list_getitem f_events (k - 1) = Failed IndexError.
Proof.
  intros HF Hint Hk.
  rewrite (menu_numbers_events_from_one_aux int f_events names sel HF), Hint.
  split; [reflexivity |].
  unfold list_getitem.
  destruct (Z.ltb_spec (k - 1) 0); [lia |].
  destruct (Z.leb_spec 0 (k - 1)); [|lia].
  destruct (Z.ltb_spec (k - 1) (Z.of_nat (length f_events))); [lia | reflexivity].
Qed.

Lemma typing_beyond_menu_raises_witness :
  (get_event_selection sample_int [ev_spring; ev_summer] "3").2 = Ok (3 - 1)%Z ∧
  list_getitem [ev_spring; ev_summer] (3 - 1) = Failed IndexError.
Proof.
  apply (typing_beyond_menu_raises sample_int [ev_spring; ev_summer]
           ["Spring Ride"; "Summer Ride"] "3" 3).
  - repeat constructor.
  - reflexivity.
  - simpl. lia.
Defined.

(** *** Registrants and the spreadsheet *)

Lemma map_result_Forall2 {A B} (f : A → result B) (l : list A) (k : list B) :
  map_result f l = Ok k → Forall2 (fun x y => f x = Ok y) l k.
Proof.
  revert k. induction l as [|x l IH]; intros k; simpl.
  - intros [= <-]. constructor.
  - destruct (f x) as [y|] eqn:Hy; simpl; [|discriminate].
    destruct (map_result f l) as [ys|]; simpl; [|discriminate].
    intros [= <-]. constructor; [exact Hy | by apply IH].
Qed.

(** X23. When [get_registrants] returns, it has sent two requests, for
    the orders of the event and then for the event; the registrants are
    one per order, in order and with no order dropped or merged, each
    with the three fields of its order; the end date is the parsed end
    of the event. *)
Theorem registrants_are_one_per_order
    (key : string) (network : list request → request → outcome response)
    (strptime : string → string → result datetime) (id : string)
    (log log' : list request) (regs : list order_registrant) (end_date : datetime) :
  get_registrants key network strptime id log = (Done (regs, end_date), log') →
  log' = log ++ [eventbrite_get key (orders_url id); eventbrite_get key (event_url id)] ∧
  ∃ data orders date_data,
    fetch network log (eventbrite_get key (orders_url id)) = Done data ∧
    getitem data "orders" ≫= iter = Ok orders ∧
    Forall2 (fun o r => registrant_of_order o = Ok r) orders regs ∧
    fetch network (log ++ [eventbrite_get key (orders_url id)])
      (eventbrite_get key (event_url id)) = Done date_data ∧
    event_end strptime date_data = Ok end_date.
Proof.
  unfold get_registrants. rewrite io_bind_unfold, eventbrite_api_request_fetch.
  destruct (fetch network log _) as [data|f] eqn:Hfetch; [|discriminate].
  rewrite io_bind_unfold. unfold lift at 1.
  destruct (getitem data "orders") as [os|] eqn:Ho; simpl; [|discriminate].
  destruct (iter os) as [orders|] eqn:Hi; simpl; [|discriminate].
  destruct (map_result registrant_of_order orders) as [rs|] eqn:Hm; [|discriminate].
  rewrite io_bind_unfold, eventbrite_api_request_fetch.
  destruct (fetch network (log ++ _) _) as [date_data|f] eqn:Hfetch2; [|discriminate].
  rewrite io_bind_unfold. unfold lift.
  destruct (event_end strptime date_data) as [t|] eqn:Ht; [|discriminate].
  intros [= <- <- <-]. split; [by rewrite <- app_assoc |].
  exists data, orders, date_data. rewrite Ho. simpl. rewrite Hi.
  repeat split; try done. by apply map_result_Forall2.
Qed.

Lemma registrants_are_one_per_order_witness :
  [] ++ [eventbrite_get "k" (orders_url "102"); eventbrite_get "k" (event_url "102")] =
    [] ++ [eventbrite_get "k" (orders_url "102"); eventbrite_get "k" (event_url "102")] ∧
  ∃ data orders date_data,
    fetch sample_network [] (eventbrite_get "k" (orders_url "102")) = Done data ∧
    getitem data "orders" ≫= iter = Ok orders ∧
    Forall2 (fun o r => registrant_of_order o = Ok r) orders
      (order_registrant_of <$> [alice; carol]) ∧
    fetch sample_network ([] ++ [eventbrite_get "k" (orders_url "102")])
      (eventbrite_get "k" (event_url "102")) = Done date_data ∧
    event_end sample_strptime date_data = Ok t_2024_06_01.
Proof.
  apply (registrants_are_one_per_order "k" sample_network sample_strptime "102" []
           ([] ++ [eventbrite_get "k" (orders_url "102");
                   eventbrite_get "k" (event_url "102")])
           (order_registrant_of <$> [alice; carol]) t_2024_06_01).
  reflexivity.
Defined.

(** X24. When the orders of the answer cannot be read (no ['orders'], an
    order without one of the three keys), [get_registrants] raises that
    exception and the event is never requested. *)
Theorem unreadable_orders_stop_before_event
    (key : string) (network : list request → request → outcome response)
    (strptime : string → string → result datetime) (id : string)
    (log : list request) (data : value) (e : exn) :
  fetch network log (eventbrite_get key (orders_url id)) = Done data →
  (orders ← getitem data "orders"; os ← iter orders;
   map_result registrant_of_order os) = Raise e →
  get_registrants key network strptime id log =
    (Failed (PyError e), log ++ [eventbrite_get key (orders_url id)]).
Proof.
  intros Hfetch Hraise.
  unfold get_registrants. rewrite io_bind_unfold, eventbrite_api_request_fetch, Hfetch.
  rewrite io_bind_unfold. unfold lift at 1. by rewrite Hraise.
Qed.

Lemma unreadable_orders_stop_before_event_witness :
  get_registrants "k" sample_network sample_strptime "103" [] =
    (Failed (PyError (KeyError "orders")), [] ++ [eventbrite_get "k" (orders_url "103")]).
Proof.
  apply (unreadable_orders_stop_before_event "k" sample_network sample_strptime
           "103" [] (VDict []) (KeyError "orders")).
  - reflexivity.
  - reflexivity.
Defined.

(** X25. The spreadsheet export sends the clear request and then the
    write request, and does not look at the answer to the clear request:
    whatever its status, the write is sent and alone decides the outcome. *)
Theorem clear_status_is_ignored
    (key sheet : string) (network : list request → request → outcome response)
    (data : value) (log : list request) (cleared : response) :
  network log (clear_request key sheet) = Done cleared →
  output_to_google_sheets key sheet network data log =
    (fetch network (log ++ [clear_request key sheet]) (write_request key sheet data),
     log ++ [clear_request key sheet; write_request key sheet data]).
Proof.
  intros Hclear. unfold output_to_google_sheets.
  rewrite io_bind_unfold. unfold send at 1. rewrite Hclear.
  rewrite send_check_decode. by rewrite <- app_assoc.
Qed.

Lemma clear_status_is_ignored_witness :
  output_to_google_sheets "k" "sheet" sample_network (VList []) [] =
    (fetch sample_network ([] ++ [clear_request "k" "sheet"])
       (write_request "k" "sheet" (VList [])),
     [] ++ [clear_request "k" "sheet"; write_request "k" "sheet" (VList [])]).
Proof.
  apply (clear_status_is_ignored "k" "sheet" sample_network (VList []) []
           (mkResponse 503 (Raise ValueError))).
  reflexivity.
Defined.
